(** * The batch classification pipeline of [app.py]

    A shallow embedding of the response parser ([parse_response]), the
    batch classifier ([process_batch_dialogue]), the aggregation helpers
    ([calculate_category_counts], [format_category_result]) and the
    sidebar handler that replaces the category list, followed by the
    properties the specification states about them.

    Python values are modelled as follows.
    - [str] is a sequence of Unicode code points: [list N].
    - a [dict] is an association list in insertion order, updated in
      place when the key is already there and extended at the end
      otherwise, so that key order is the one Python iterates in.
    - an exception is an error result [Exc e]; [try ... except Exception]
      is [try_except].
    - the two external calls are inputs: the standard JSON decoder is a
      Section variable [json_parse] (grammar only; the construction of
      the Python object from the syntax tree is [to_py]), and the outcome
      of the language-model call is an argument of
      [process_batch_dialogue]. *)

From Stdlib Require Import String Ascii.
From Stdlib Require Import List NArith ZArith Bool Lia.
From Equations Require Import Equations.
Import ListNotations.

Set Warnings "-register-all".

(** ** Exceptions *)

Inductive exn : Type :=
| IndexError
| ValueError
| TypeError
| AttributeError
| KeyError
| JSONDecodeError
| BackendError.

Inductive res (A : Type) : Type :=
| Ret (a : A)
| Exc (e : exn).

Arguments Ret {A} a.
Arguments Exc {A} e.

Definition bind {A B : Type} (m : res A) (k : A -> res B) : res B :=
  match m with
  | Ret a => k a
  | Exc e => Exc e
  end.

Notation "x <- m ;; k" := (bind m (fun x => k))
  (at level 61, m at next level, right associativity).

(** [try: body except Exception: handler]. *)
Definition try_except {A : Type} (body : res A) (handler : exn -> res A) : res A :=
  match body with
  | Ret a => Ret a
  | Exc e => handler e
  end.

(** ** Python strings *)

Module PyStr.

Definition char : Type := N.
Definition str : Type := list char.

(** Text written with ASCII characters only. *)
Definition u (s : string) : str := map N_of_ascii (list_ascii_of_string s).

Fixpoint eqb (a b : str) : bool :=
  match a, b with
  | [], [] => true
  | x :: a', y :: b' => N.eqb x y && eqb a' b'
  | _, _ => false
  end.

Definition in_range (lo hi c : N) : bool := N.leb lo c && N.leb c hi.

(** [str.isspace] on one code point: the characters [str.strip()] removes. *)
Definition is_space (c : char) : bool :=
  in_range 9 13 c || in_range 28 32 c || N.eqb c 133 || N.eqb c 160
  || N.eqb c 5760 || in_range 8192 8202 c || N.eqb c 8232 || N.eqb c 8233
  || N.eqb c 8239 || N.eqb c 8287 || N.eqb c 12288.

(** The line boundaries of [str.splitlines]. *)
Definition is_linebreak (c : char) : bool :=
  in_range 10 13 c || in_range 28 30 c || N.eqb c 133
  || N.eqb c 8232 || N.eqb c 8233.

Fixpoint lstrip (s : str) : str :=
  match s with
  | [] => []
  | c :: s' => if is_space c then lstrip s' else s
  end.

Definition rstrip (s : str) : str := rev (lstrip (rev s)).

Definition strip (s : str) : str := rstrip (lstrip s).

Fixpoint startswith (s prefix : str) : bool :=
  match prefix, s with
  | [], _ => true
  | p :: prefix', c :: s' => N.eqb p c && startswith s' prefix'
  | _ :: _, [] => false
  end.

(** [sub in s] for two strings. *)
Fixpoint contains (s sub : str) : bool :=
  startswith s sub ||
  match s with
  | [] => false
  | _ :: s' => contains s' sub
  end.

(** [s.split(sep)] for a non-empty [sep]: occurrences are taken from the
    left and do not overlap. [skip] counts the characters of a matched
    separator still to be passed over, [cur] is the current piece,
    reversed. *)
Fixpoint split_go (sep : str) (skip : nat) (cur : str) (s : str) : list str :=
  match s with
  | [] => [rev cur]
  | c :: s' =>
      match skip with
      | S k => split_go sep k cur s'
      | O =>
          if startswith s sep
          then rev cur :: split_go sep (length sep - 1) [] s'
          else split_go sep 0 (c :: cur) s'
      end
  end.

(** [s.split(sep)]; an empty separator raises [ValueError]. *)
Definition split (s sep : str) : res (list str) :=
  match sep with
  | [] => Exc ValueError
  | _ :: _ => Ret (split_go sep 0 [] s)
  end.

(** [s.splitlines()]: a carriage return followed by a line feed is one
    boundary, and no empty line is reported after a final boundary. *)
Fixpoint splitlines_go (cur : str) (s : str) : list str :=
  match s with
  | [] => match cur with [] => [] | _ :: _ => [rev cur] end
  | c :: s' =>
      if is_linebreak c then
        rev cur ::
        (if N.eqb c 13 then
           match s' with
           | d :: s'' => if N.eqb d 10 then splitlines_go [] s''
                         else splitlines_go [] s'
           | [] => splitlines_go [] s'
           end
         else splitlines_go [] s')
      else splitlines_go (c :: cur) s'
  end.

Definition splitlines (s : str) : list str := splitlines_go [] s.

(** [sep.join(parts)]. *)
Fixpoint join (sep : str) (parts : list str) : str :=
  match parts with
  | [] => []
  | [p] => p
  | p :: rest => p ++ sep ++ join sep rest
  end.

Definition nonempty (s : str) : bool :=
  match s with [] => false | _ :: _ => true end.

End PyStr.

Import PyStr.

(** ** Python values and dictionaries *)

(** The values the JSON decoder can build. A float keeps its lexeme: no
    operation of the pipeline looks inside one. *)
Inductive PyVal : Type :=
| PNone
| PBool (b : bool)
| PInt (z : Z)
| PFloat (lexeme : str)
| PStr (s : str)
| PList (l : list PyVal)
| PDict (d : list (str * PyVal)).

Module Dict.

Definition dict (V : Type) : Type := list (str * V).

Section Ops.
Context {V : Type}.

(** [d.get(k)] *)
Fixpoint get (d : dict V) (k : str) : option V :=
  match d with
  | [] => None
  | (k', v) :: d' => if eqb k k' then Some v else get d' k
  end.

(** [k in d] *)
Definition mem (d : dict V) (k : str) : bool :=
  match get d k with Some _ => true | None => false end.

(** [d[k] = v]: the value is replaced where the key already is, and a
    new key goes last. *)
Fixpoint set (d : dict V) (k : str) (v : V) : dict V :=
  match d with
  | [] => [(k, v)]
  | (k', v') :: d' => if eqb k k' then (k', v) :: d' else (k', v') :: set d' k v
  end.

(** [d[k]], which raises [KeyError] on a missing key. *)
Definition getitem (d : dict V) (k : str) : res V :=
  match get d k with
  | Some v => Ret v
  | None => Exc KeyError
  end.

Definition keys (d : dict V) : list str := map fst d.

(** [d.update(e)] *)
Definition update (d e : dict V) : dict V :=
  fold_left (fun acc kv => set acc (fst kv) (snd kv)) e d.

(** [{k: v for k in ks}] *)
Definition from_keys (ks : list str) (v : V) : dict V :=
  fold_left (fun acc k => set acc k v) ks [].

End Ops.

(** [dict(pairs)] continued from [acc], each value converted by [f]. *)
Fixpoint of_pairs {A V : Type} (f : A -> V) (pairs : list (str * A)) (acc : dict V)
    : dict V :=
  match pairs with
  | [] => acc
  | (k, v) :: pairs' => of_pairs f pairs' (set acc k (f v))
  end.

End Dict.

Import Dict.

(** ** JSON *)

(** The syntax tree of a JSON text; the members of an object are in
    textual order and may repeat a name. *)
Inductive json : Type :=
| JNull
| JBool (b : bool)
| JInt (z : Z)
| JFloat (lexeme : str)
| JString (s : str)
| JArray (l : list json)
| JObject (members : list (str * json)).

(** The Python object the decoder builds from a syntax tree: an object
    becomes [dict(pairs)], so of two members with one name the later value
    stays, at the position of the first. *)
Fixpoint to_py (j : json) : PyVal :=
  match j with
  | JNull => PNone
  | JBool b => PBool b
  | JInt z => PInt z
  | JFloat x => PFloat x
  | JString s => PStr s
  | JArray l => PList (map to_py l)
  | JObject members => PDict (of_pairs to_py members [])
  end.

(** The dict a JSON object decodes to. *)
Definition object_dict (members : list (str * json)) : dict PyVal :=
  of_pairs to_py members [].

(** *** A reference decoder

    [parse_response] calls the decoder of the Python standard library,
    which is not part of this repository; the theorems below hold for
    every decoder. [JsonRef.parse] is a decoder for the JSON grammar
    (objects, arrays, strings with their escapes, numbers, [true],
    [false], [null]) on which the pipeline can be run on concrete texts. *)

Module JsonRef.

Local Open Scope N_scope.

Definition is_ws (c : char) : bool :=
  (c =? 32) || (c =? 9) || (c =? 10) || (c =? 13).

Fixpoint skip_ws (s : str) : str :=
  match s with
  | [] => []
  | c :: s' => if is_ws c then skip_ws s' else s
  end.

Definition is_digit (c : char) : bool := in_range 48 57 c.

Definition hex_digit (c : char) : option N :=
  if in_range 48 57 c then Some (c - 48)
  else if in_range 97 102 c then Some (c - 87)
  else if in_range 65 70 c then Some (c - 55)
  else None.

Definition hex4 (a b c d : char) : option N :=
  match hex_digit a, hex_digit b, hex_digit c, hex_digit d with
  | Some x, Some y, Some z, Some w => Some (((x * 16 + y) * 16 + z) * 16 + w)
  | _, _, _, _ => None
  end.

(** The character an escape letter stands for. *)
Definition unescape (e : char) : option char :=
  if e =? 34 then Some 34
  else if e =? 92 then Some 92
  else if e =? 47 then Some 47
  else if e =? 98 then Some 8
  else if e =? 102 then Some 12
  else if e =? 110 then Some 10
  else if e =? 114 then Some 13
  else if e =? 116 then Some 9
  else None.

(** The low half of a surrogate pair written as a second escape. *)
Definition low_surrogate (s : str) : option (N * str) :=
  match s with
  | b :: l :: h1 :: h2 :: h3 :: h4 :: s' =>
      if (b =? 92) && (l =? 117) then
        match hex4 h1 h2 h3 h4 with
        | Some lo => if in_range 56320 57343 lo then Some (lo, s') else None
        | None => None
        end
      else None
  | _ => None
  end.

(** The body of a string, after its opening quote. *)
Fixpoint scan_string (acc : str) (s : str) : option (str * str) :=
  match s with
  | [] => None
  | c :: r =>
      if c =? 34 then Some (rev acc, r)
      else if c =? 92 then
        match r with
        | [] => None
        | e :: r' =>
            if e =? 117 then
              match r' with
              | h1 :: h2 :: h3 :: h4 :: r'' =>
                  match hex4 h1 h2 h3 h4 with
                  | None => None
                  | Some cp =>
                      if in_range 55296 56319 cp then
                        match r'' with
                        | b :: l :: g1 :: g2 :: g3 :: g4 :: r3 =>
                            match low_surrogate r'' with
                            | Some (lo, _) =>
                                scan_string
                                  (65536 + (cp - 55296) * 1024 + (lo - 56320) :: acc) r3
                            | None => scan_string (cp :: acc) r''
                            end
                        | _ => scan_string (cp :: acc) r''
                        end
                      else scan_string (cp :: acc) r''
                  end
              | _ => None
              end
            else
              match unescape e with
              | Some x => scan_string (x :: acc) r'
              | None => None
              end
        end
      else if c <? 32 then None
      else scan_string (c :: acc) r
  end.

Fixpoint scan_digits (acc : str) (s : str) : str * str :=
  match s with
  | c :: s' => if is_digit c then scan_digits (c :: acc) s' else (rev acc, s)
  | [] => (rev acc, [])
  end.

Definition digits_value (ds : str) : Z :=
  fold_left (fun v c => (v * 10 + Z.of_N (c - 48))%Z) ds 0%Z.

(** The integer part: a single [0], or a non-zero digit and more digits. *)
Definition scan_int (s : str) : option (str * str) :=
  match s with
  | c :: s' =>
      if c =? 48 then Some ([c], s')
      else if in_range 49 57 c then
        let '(ds, r) := scan_digits [] s' in Some (c :: ds, r)
      else None
  | [] => None
  end.

Definition scan_frac (s : str) : str * str :=
  match s with
  | c :: s' =>
      if c =? 46 then
        match scan_digits [] s' with
        | ([], _) => ([], s)
        | (ds, r) => (c :: ds, r)
        end
      else ([], s)
  | [] => ([], s)
  end.

Definition scan_exp (s : str) : str * str :=
  match s with
  | c :: s' =>
      if (c =? 101) || (c =? 69) then
        let '(sign, s'') :=
          match s' with
          | g :: t => if (g =? 43) || (g =? 45) then ([g], t) else ([], s')
          | [] => ([], s')
          end in
        match scan_digits [] s'' with
        | ([], _) => ([], s)
        | (ds, r) => (c :: sign ++ ds, r)
        end
      else ([], s)
  | [] => ([], s)
  end.

Definition scan_number (s : str) : option (json * str) :=
  let '(neg, s1) :=
    match s with
    | c :: s' => if c =? 45 then (true, s') else (false, s)
    | [] => (false, s)
    end in
  match scan_int s1 with
  | None => None
  | Some (ip, s2) =>
      let '(fp, s3) := scan_frac s2 in
      let '(ep, s4) := scan_exp s3 in
      match fp, ep with
      | [], [] =>
          Some (JInt (if neg then (- digits_value ip)%Z else digits_value ip), s4)
      | _, _ =>
          Some (JFloat ((if neg then [45] else []) ++ ip ++ fp ++ ep), s4)
      end
  end.

(** A fixed word at the head of the text. *)
Definition scan_word (w : str) (j : json) (s : str) : option (json * str) :=
  if startswith s w then Some (j, skipn (length w) s) else None.

Definition scan_literal (s : str) : option (json * str) :=
  match scan_word (u "null") JNull s with
  | Some r => Some r
  | None =>
  match scan_word (u "true") (JBool true) s with
  | Some r => Some r
  | None =>
  match scan_word (u "false") (JBool false) s with
  | Some r => Some r
  | None =>
  match scan_word (u "NaN") (JFloat (u "NaN")) s with
  | Some r => Some r
  | None =>
  match scan_word (u "Infinity") (JFloat (u "Infinity")) s with
  | Some r => Some r
  | None => scan_word (u "-Infinity") (JFloat (u "-Infinity")) s
  end end end end end.

Fixpoint scan_value (fuel : nat) (s : str) : option (json * str) :=
  match fuel with
  | O => None
  | S f =>
      match s with
      | [] => None
      | c :: r =>
          if c =? 34 then
            match scan_string [] r with
            | Some (t, r') => Some (JString t, r')
            | None => None
            end
          else if c =? 123 then
            match skip_ws r with
            | d :: r' => if d =? 125 then Some (JObject [], r')
                         else scan_members f [] (skip_ws r)
            | [] => None
            end
          else if c =? 91 then
            match skip_ws r with
            | d :: r' => if d =? 93 then Some (JArray [], r')
                         else scan_elements f [] (skip_ws r)
            | [] => None
            end
          else
            match scan_literal s with
            | Some x => Some x
            | None => scan_number s
            end
      end
  end

with scan_elements (fuel : nat) (acc : list json) (s : str) : option (json * str) :=
  match fuel with
  | O => None
  | S f =>
      match scan_value f s with
      | None => None
      | Some (v, r) =>
          match skip_ws r with
          | d :: r' =>
              if d =? 44 then scan_elements f (v :: acc) (skip_ws r')
              else if d =? 93 then Some (JArray (rev (v :: acc)), r')
              else None
          | [] => None
          end
      end
  end

with scan_members (fuel : nat) (acc : list (str * json)) (s : str) : option (json * str) :=
  match fuel with
  | O => None
  | S f =>
      match s with
      | q :: r =>
          if q =? 34 then
            match scan_string [] r with
            | None => None
            | Some (k, r1) =>
                match skip_ws r1 with
                | c :: r2 =>
                    if c =? 58 then
                      match scan_value f (skip_ws r2) with
                      | None => None
                      | Some (v, r3) =>
                          match skip_ws r3 with
                          | d :: r4 =>
                              if d =? 44 then scan_members f ((k, v) :: acc) (skip_ws r4)
                              else if d =? 125 then Some (JObject (rev ((k, v) :: acc)), r4)
                              else None
                          | [] => None
                          end
                      end
                    else None
                | [] => None
                end
            end
          else None
      | [] => None
      end
  end.

(** One JSON value with optional white space around it, and nothing else. *)
Definition parse (s : str) : option json :=
  match scan_value (2 * length s + 2) (skip_ws s) with
  | Some (j, r) => match skip_ws r with [] => Some j | _ :: _ => None end
  | None => None
  end.

End JsonRef.

(** ** The response parser *)

(** The marker of a fenced code block: three backticks. *)
Definition fence : str := [96; 96; 96]%N.

(** The value every category of a fallback record maps to: [""]. *)
Definition absent_flag : PyVal := PStr [].

(** [{item: "" for item in categories}] *)
Definition absent_record (categories : list str) : PyVal :=
  PDict (from_keys categories absent_flag).

(** [v == s] for a string [s]. *)
Definition is_str (v : PyVal) (s : str) : bool :=
  match v with
  | PStr t => eqb t s
  | _ => false
  end.

(** [item in container]: key membership in a dict, element membership in
    a list, substring test in a string, [TypeError] on anything else. *)
Definition py_contains (container : PyVal) (item : str) : res bool :=
  match container with
  | PDict d => Ret (mem d item)
  | PList l => Ret (existsb (fun x => is_str x item) l)
  | PStr s => Ret (contains s item)
  | _ => Exc TypeError
  end.

(** [container[k] = v] with a string [k]: only a dict accepts it. *)
Definition py_setitem (container : PyVal) (k : str) (v : PyVal) : res PyVal :=
  match container with
  | PDict d => Ret (PDict (set d k v))
  | _ => Exc TypeError
  end.

(** The loop [for item in categories: if item not in result: result[item] = ""]. *)
Fixpoint fill_missing (result : PyVal) (categories : list str) : res PyVal :=
  match categories with
  | [] => Ret result
  | item :: rest =>
      present <- py_contains result item ;;
      if present then fill_missing result rest
      else result' <- py_setitem result item absent_flag ;;
           fill_missing result' rest
  end.

(** [lines[0]] *)
Definition first_line (lines : list str) : res str :=
  match lines with
  | l0 :: _ => Ret l0
  | [] => Exc IndexError
  end.

(** The text handed to the decoder (lines 114 to 121 of [app.py]). *)
Definition clean_fragment (response_text : str) : res str :=
  let cleaned := strip response_text in
  if startswith cleaned fence then
    let lines := splitlines cleaned in
    l0 <- first_line lines ;;
    let lines := if startswith l0 fence then tl lines else lines in
    let lines :=
      match lines with
      | [] => lines
      | _ :: _ => if eqb (strip (last lines [])) fence then removelast lines else lines
      end in
    Ret (strip (join [10%N] lines))
  else Ret cleaned.

(** *** The reconciliation steps of the batch classifier *)

(** [while len(results) < len(dialogues): results.append({...})] *)
Equations? pad_results (results : list PyVal) (n : nat) (categories : list str)
    : list PyVal by wf (n - length results) lt :=
  pad_results results n categories with lt_dec (length results) n := {
    | left _ => pad_results (results ++ [absent_record categories]) n categories;
    | right _ => results }.
Proof. rewrite length_app. simpl. lia. Qed.

(** [if len(results) > len(dialogues): results = results[:len(dialogues)]] *)
Definition truncate_results (results : list PyVal) (n : nat) : list PyVal :=
  if Nat.ltb n (length results) then firstn n results else results.

Section Parser.

(** The JSON decoder of the host language, [None] when it raises. *)
Variable json_parse : str -> option json.

Definition json_loads (s : str) : res PyVal :=
  match json_parse s with
  | Some j => Ret (to_py j)
  | None => Exc JSONDecodeError
  end.

Definition parse_response (response_text : str) (categories : list str) : res PyVal :=
  cleaned <- clean_fragment response_text ;;
  try_except
    (result <- json_loads cleaned ;;
     fill_missing result categories)
    (fun _ => Ret (absent_record categories)).

(** ** The batch classifier *)

(** The loop over the parts of the response (lines 167 to 171). *)
Fixpoint parse_parts (parts : list str) (categories : list str)
    (results : list PyVal) : res (list PyVal) :=
  match parts with
  | [] => Ret results
  | part :: rest =>
      let part := strip part in
      if nonempty part then
        r <- parse_response part categories ;;
        parse_parts rest categories (results ++ [r])
      else parse_parts rest categories results
  end.

(** [response] is the outcome of the [try] block that calls the model:
    the response text, or the exception it raised. The prompt built from
    the target language, the categories and the dialogues only feeds
    that call; of [dialogues] the rest of the function uses the length. *)
Definition process_batch_dialogue (dialogues : list str) (categories : list str)
    (delimiter : str) (response : res str) : res (list PyVal) :=
  match response with
  | Exc _ => Ret (map (fun _ => absent_record categories) dialogues)
  | Ret response_text =>
      parts <- split response_text delimiter ;;
      results <- parse_parts parts categories [] ;;
      let results := pad_results results (length dialogues) categories in
      Ret (truncate_results results (length dialogues))
  end.

End Parser.

(** The default delimiter of [process_batch_dialogue]. *)
Definition default_delimiter : str := u "-----".

(** ** Aggregation *)

(** [result.get(k)]: the value, Python's [None] for a missing key;
    only a dict has the method. *)
Definition py_get (result : PyVal) (k : str) : res (option PyVal) :=
  match result with
  | PDict d => Ret (get d k)
  | _ => Exc AttributeError
  end.

(** [flag == "1"] *)
Definition is_one (flag : option PyVal) : bool :=
  match flag with
  | Some v => is_str v (u "1")
  | None => false
  end.

(** The inner loop of [calculate_category_counts] for one record. *)
Fixpoint count_record (result : PyVal) (categories : list str) (counts : dict Z)
    : res (dict Z) :=
  match categories with
  | [] => Ret counts
  | category :: rest =>
      flag <- py_get result category ;;
      if is_one flag then
        c <- getitem counts category ;;
        count_record result rest (set counts category (c + 1)%Z)
      else count_record result rest counts
  end.

Fixpoint count_results (results : list PyVal) (categories : list str)
    (counts : dict Z) : res (dict Z) :=
  match results with
  | [] => Ret counts
  | result :: rest =>
      counts' <- count_record result categories counts ;;
      count_results rest categories counts'
  end.

Definition calculate_category_counts (results : list PyVal) (categories : list str)
    : res (dict Z) :=
  count_results results categories (from_keys categories 0%Z).

(** *** [format_category_result], on a store of dict objects

    The function builds a new dict while it reads the record it is given,
    so both live in one store: an object is a position of the list. *)





(** The display glyph, a check mark. *)
Definition glyph : str := [10003%N].

Definition display (flag : option PyVal) : PyVal :=
  if is_one flag then PStr glyph else PStr [].



(** ** The category list of the session *)

(** The list installed when the session has none (lines 46 to 54). *)
Definition default_categories : list str :=
  [ [35486; 27861; 21839; 38988];
    [30332; 38899; 21839; 38988];
    [32893; 21147; 21839; 38988];
    [35422; 24409; 21839; 38988];
    [25991; 21270; 29702; 35299; 21839; 38988];
    [21475; 35498; 32244; 32722];
    [35486; 35328; 23416; 32722; 25216; 24039] ]%N.

Inductive notice : Type :=
| Success (count : nat)
| Error.

(** [[cat.strip() for cat in categories_text.split("\n") if cat.strip()]];
    the separator is the one-character string of a line feed, so [split]
    cannot raise and is its loop. *)
Definition parse_categories (categories_text : str) : list str :=
  map strip
      (filter (fun cat => nonempty (strip cat)) (split_go [10%N] 0 [] categories_text)).

(** The handler of the update button (lines 64 to 70): the new value of
    [custom_categories] and the notice shown. *)
Definition update_categories (categories_text : str) (custom_categories : list str)
    : list str * notice :=
  let categories := parse_categories categories_text in
  match categories with
  | [] => (custom_categories, Error)
  | _ :: _ => (categories, Success (length categories))
  end.

(** The category lists a session can hold. *)
Inductive reachable : list str -> Prop :=
| reach_init : reachable default_categories
| reach_update (categories_text : str) (cs : list str) :
    reachable cs -> reachable (fst (update_categories categories_text cs)).

(** ** Notions used to state the properties *)

Definition str_eq_dec : forall a b : str, {a = b} + {a <> b} :=
  list_eq_dec N.eq_dec.

(** ASCII text in which an apostrophe stands for a double quote. *)
Definition q (s : string) : str :=
  map (fun c => if N.eqb c 39 then 34%N else c) (u s).

(** No white space at either end. *)
Definition trimmed (s : str) : Prop :=
  (forall c r, s = c :: r -> is_space c = false) /\
  (forall c r, s = r ++ [c] -> is_space c = false).

(** The text [parse_response] hands to the decoder. *)
Definition cleaned_text (response_text : str) : str :=
  match clean_fragment response_text with
  | Ret cleaned => cleaned
  | Exc _ => []
  end.

(** The record [parse_response] returns. *)
Definition parse_fragment (json_parse : str -> option json)
    (response_text : str) (categories : list str) : PyVal :=
  match parse_response json_parse response_text categories with
  | Ret v => v
  | Exc _ => absent_record categories
  end.

(** A value is a record over [categories] when it is a dict with an
    entry for each of them. *)
Definition covers (categories : list str) (v : PyVal) : Prop :=
  exists d, v = PDict d /\ forall c, In c categories -> get d c <> None.

(** A dict in which every category maps to [""] and nothing else is. *)
Definition all_absent (categories : list str) (v : PyVal) : Prop :=
  exists d, v = PDict d /\
    NoDup (keys d) /\
    forall k, get d k = if in_dec str_eq_dec k categories then Some absent_flag else None.

(** What the loop of [parse_response] does to a decoded dict. *)
Definition fill_dict (d : dict PyVal) (categories : list str) : dict PyVal :=
  fold_left (fun acc c => if mem acc c then acc else set acc c absent_flag)
            categories d.

(** *** The batch classifier in the words of the specification *)

(** Split on the delimiter, trim each segment, drop the empty ones. *)
Definition segments_spec (response_text delimiter : str) : list str :=
  filter nonempty (map strip (split_go delimiter 0 [] response_text)).

(** Pad with all-absent records at the end when fewer than [n] were
    parsed, keep the first [n] when more were. *)
Definition reconcile_spec (parsed : list PyVal) (n : nat) (categories : list str)
    : list PyVal :=
  if Nat.ltb (length parsed) n
  then parsed ++ repeat (absent_record categories) (n - length parsed)
  else if Nat.ltb n (length parsed) then firstn n parsed
  else parsed.

Definition classify_spec (json_parse : str -> option json) (dialogues : list str)
    (categories : list str) (delimiter : str) (response_text : str) : list PyVal :=
  reconcile_spec
    (map (fun segment => parse_fragment json_parse segment categories)
         (segments_spec response_text delimiter))
    (length dialogues) categories.

(** *** Counting in the words of the specification *)

(** The flag of the record for the category is exactly ["1"]. *)
Definition flagged (record : dict PyVal) (category : str) : bool :=
  is_one (get record category).

Definition flagged_count (records : list (dict PyVal)) (category : str) : Z :=
  Z.of_nat (length (filter (fun r => flagged r category) records)).

(** How many times the category is listed. *)
Definition listed (categories : list str) (category : str) : Z :=
  Z.of_nat (count_occ str_eq_dec categories category).

(** What one record adds to the count of a category: as many units as
    the category is listed, when the record has the flag. *)
Definition bump (record : dict PyVal) (categories : list str) (k : str) : Z :=
  if flagged record k then listed categories k else 0%Z.

(** An entry of the category list: not empty, no white space around. *)
Definition well_formed_entry (c : str) : Prop := c <> [] /\ trimmed c.


(** ** Search results and the merge of the main flow *)

Definition k_title : str := u "title".
Definition k_snippet : str := u "snippet".
Definition k_link : str := u "link".

(** [result.get(k, "")]; only a dict has the method. *)
Definition py_get_default (result : PyVal) (k : str) : res PyVal :=
  match result with
  | PDict d => Ret (match get d k with Some v => v | None => PStr [] end)
  | _ => Exc AttributeError
  end.

(** The loop of [parse_search_results] (lines 105 to 109), [search_data]
    being the list built so far. *)
Fixpoint parse_search_loop (results : list PyVal) (search_data : list (dict PyVal))
    : res (list (dict PyVal)) :=
  match results with
  | [] => Ret search_data
  | result :: rest =>
      title <- py_get_default result k_title ;;
      snippet <- py_get_default result k_snippet ;;
      link <- py_get_default result k_link ;;
      parse_search_loop rest
        (search_data ++ [[(k_title, title); (k_snippet, snippet); (k_link, link)]])
  end.

Definition parse_search_results (results : list PyVal) : res (list (dict PyVal)) :=
  parse_search_loop results [].

(** [[item["snippet"] for item in search_data]] (line 262). *)
Fixpoint snippets (search_data : list (dict PyVal)) : res (list PyVal) :=
  match search_data with
  | [] => Ret []
  | item :: rest =>
      snippet <- getitem item k_snippet ;;
      others <- snippets rest ;;
      Ret (snippet :: others)
  end.

(** [result.update(item)]; only a dict has the method. *)
Definition py_update (result : PyVal) (item : dict PyVal) : res PyVal :=
  match result with
  | PDict d => Ret (PDict (update d item))
  | _ => Exc AttributeError
  end.

(** [search_data[i]] *)
Definition getindex {A : Type} (l : list A) (i : nat) : res A :=
  match nth_error l i with
  | Some x => Ret x
  | None => Exc IndexError
  end.

(** The merge loop of the main flow (lines 289 to 291), from index [i]:
    the records as they are after the loop. *)
Fixpoint merge_loop (i : nat) (batch_results : list PyVal)
    (search_data : list (dict PyVal)) : res (list PyVal) :=
  match batch_results with
  | [] => Ret []
  | result :: rest =>
      result' <- (if Nat.ltb i (length search_data)
                  then item <- getindex search_data i ;; py_update result item
                  else Ret result) ;;
      rest' <- merge_loop (S i) rest search_data ;;
      Ret (result' :: rest')
  end.

Definition merge_results (batch_results : list PyVal) (search_data : list (dict PyVal))
    : res (list PyVal) :=
  merge_loop 0 batch_results search_data.

(** A character that ends a line does not occur in the text. *)
Definition one_line (s : str) : Prop :=
  forall c, In c s -> is_linebreak c = false.

(** The text is white space only. *)
Definition blank (s : str) : Prop :=
  forall c, In c s -> is_space c = true.

(** The value of [d.get(k, "")]. *)
Definition or_empty (o : option PyVal) : PyVal :=
  match o with
  | Some v => v
  | None => PStr []
  end.

(** The entry [parse_search_results] builds from one result. *)
Definition search_item (result : dict PyVal) : dict PyVal :=
  [ (k_title, or_empty (get result k_title));
    (k_snippet, or_empty (get result k_snippet));
    (k_link, or_empty (get result k_link)) ].

Definition is_dict (v : PyVal) : bool :=
  match v with
  | PDict _ => true
  | _ => false
  end.

(** The keys the merge of the main flow writes. *)
Definition metadata_key (k : str) : Prop :=
  k = k_title \/ k = k_snippet \/ k = k_link.

(** The dict records as the merge loop leaves them, from index [i]. *)
Fixpoint overlay (i : nat) (records search_data : list (dict PyVal))
    : list (dict PyVal) :=
  match records with
  | [] => []
  | record :: rest =>
      match nth_error search_data i with
      | Some item => update record item
      | None => record
      end :: overlay (S i) rest search_data
  end.

(** The table of the second tab shows the check mark for the record and
    the category: the value [format_category_result] computes is the glyph. *)
Definition shows_glyph (record : dict PyVal) (category : str) : bool :=
  is_str (display (get record category)) glyph.

(** ** The segments of a response, without [strip] *)

(** The text is white space only, as a test. *)
Definition is_blank (s : str) : bool := forallb is_space s.

(** [segment] is [part] without the white space at its two ends, and is
    not empty. *)
Definition trims_to (part segment : str) : Prop :=
  segment <> [] /\ trimmed segment /\
  exists a b, blank a /\ blank b /\ part = a ++ segment ++ b.

(** ** The cleaning of a fragment as the specification words it

    Strip the text; remove a first line that starts with three
    backticks, if there is one; remove a last line that is exactly three
    backticks, if there is one. The two removals do not depend on each
    other. *)
Definition clean_fragment_as_worded (response_text : str) : str :=
  let cleaned := strip response_text in
  let lines := splitlines cleaned in
  let opening :=
    match lines with
    | l0 :: _ => startswith l0 fence
    | [] => false
    end in
  let lines1 := if opening then tl lines else lines in
  let closing :=
    match lines1 with
    | [] => false
    | _ :: _ => PyStr.eqb (strip (last lines1 [])) fence
    end in
  let lines2 := if closing then removelast lines1 else lines1 in
  if opening || closing then strip (join [10%N] lines2) else cleaned.

(** * Properties *)

(** ** Strings *)

Example split_on_delimiter :
  split (u "a-----b-----") (u "-----") = Ret [u "a"; u "b"; u ""].
Proof. reflexivity. Qed.

Example split_leftmost : split (u "aXXXb") (u "XX") = Ret [u "a"; u "Xb"].
Proof. reflexivity. Qed.

Example split_empty_separator : split (u "ab") [] = Exc ValueError.
Proof. reflexivity. Qed.

Example splitlines_crlf :
  splitlines (u "ab" ++ [13; 10]%N ++ u "c" ++ [10]%N) = [u "ab"; u "c"].
Proof. reflexivity. Qed.

Example strip_both_ends : strip ([32; 10]%N ++ u "a b" ++ [9; 160]%N) = u "a b".
Proof. reflexivity. Qed.

Example decode_repeated_member :
  option_map to_py (JsonRef.parse (q "{'a': 1, 'b': [true, null], 'a': 'x'}")) =
  Some (PDict [(u "a", PStr (u "x")); (u "b", PList [PBool true; PNone])]).
Proof. reflexivity. Qed.

Example decode_trailing_comma : JsonRef.parse (q "{'a': 1,}") = None.
Proof. reflexivity. Qed.

Example clean_fragment_fenced :
  clean_fragment (fence ++ u "json" ++ [10%N] ++ u "{}" ++ [10%N] ++ fence ++ [10%N])
  = Ret (u "{}").
Proof. reflexivity. Qed.

(** The closing fence is looked for only after an opening one. *)
Example clean_fragment_closing_only :
  clean_fragment (u "{}" ++ [10%N] ++ fence) = Ret (u "{}" ++ [10%N] ++ fence).
Proof. reflexivity. Qed.

Lemma eqb_eq (a b : str) : PyStr.eqb a b = true <-> a = b.
Proof.
  revert b. induction a as [|x a IH]; intros [|y b]; simpl; split; intro H;
    try reflexivity; try discriminate.
  - apply andb_true_iff in H. destruct H as [H1 H2].
    apply N.eqb_eq in H1. apply IH in H2. congruence.
  - injection H as -> ->. rewrite N.eqb_refl. simpl. apply IH. reflexivity.
Qed.

Lemma eqb_refl (a : str) : PyStr.eqb a a = true.
Proof. apply eqb_eq. reflexivity. Qed.

Lemma eqb_neq (a b : str) : PyStr.eqb a b = false <-> a <> b.
Proof.
  split; intro H.
  - intro E. apply eqb_eq in E. congruence.
  - destruct (PyStr.eqb a b) eqn:E; [|reflexivity].
    apply eqb_eq in E. contradiction.
Qed.

Lemma lstrip_head (s : str) c r : lstrip s = c :: r -> is_space c = false.
Proof.
  induction s as [|x s IH]; simpl; [discriminate|].
  destruct (is_space x) eqn:E; [exact IH|].
  intro H. injection H as <- _. exact E.
Qed.

(** [lstrip] removes a prefix, so the last character stays the last. *)
Lemma lstrip_last (s : str) c r :
  lstrip (s ++ [c]) = r -> is_space c = false -> exists r', r = r' ++ [c].
Proof.
  revert r. induction s as [|x s IH]; simpl; intros r H Hc.
  - rewrite Hc in H. exists []. symmetry. exact H.
  - destruct (is_space x).
    + eapply IH; eassumption.
    + exists (x :: s). symmetry. exact H.
Qed.

Lemma rstrip_last (s : str) c r : rstrip s = r ++ [c] -> is_space c = false.
Proof.
  unfold rstrip. intro H.
  apply (f_equal (@rev char)) in H.
  rewrite rev_involutive, rev_app_distr in H. simpl in H.
  eapply lstrip_head. exact H.
Qed.

Lemma rstrip_head (s : str) c :
  is_space c = false -> exists r', rstrip (c :: s) = c :: r'.
Proof.
  intro Hc. unfold rstrip. simpl.
  destruct (lstrip_last (rev s) c _ eq_refl Hc) as [r' Hr'].
  rewrite Hr', rev_app_distr. simpl. eexists. reflexivity.
Qed.

Theorem strip_trimmed (s : str) : trimmed (strip s).
Proof.
  unfold strip. split.
  - intros c r H.
    destruct (lstrip s) as [|x t] eqn:E; [discriminate H|].
    pose proof (lstrip_head s x t E) as Hx.
    destruct (rstrip_head t x Hx) as [r' Hr'].
    rewrite Hr' in H. injection H as <- _. exact Hx.
  - intros c r H. eapply rstrip_last. exact H.
Qed.

Lemma splitlines_go_nonempty (s cur : str) : cur <> [] -> splitlines_go cur s <> [].
Proof.
  revert cur. induction s as [|c s IH]; intros cur Hcur; simpl.
  - destruct cur; [contradiction|discriminate].
  - destruct (is_linebreak c); [discriminate|].
    apply IH. discriminate.
Qed.

Lemma startswith_fence_head (s : str) :
  startswith s fence = true -> exists r, s = 96%N :: r.
Proof.
  unfold fence. destruct s as [|c r]; cbn [startswith]; [discriminate|].
  intro H. apply andb_true_iff in H. destruct H as [H _].
  apply N.eqb_eq in H. subst c. exists r. reflexivity.
Qed.

(** The first line of a text that opens with a fence exists, so
    [lines[0]] cannot fail. *)
Lemma clean_fragment_total (response_text : str) :
  clean_fragment response_text = Ret (cleaned_text response_text).
Proof.
  unfold cleaned_text.
  assert (H : exists c, clean_fragment response_text = Ret c).
  { unfold clean_fragment.
    destruct (startswith (strip response_text) fence) eqn:E.
    - assert (Hne : splitlines (strip response_text) <> []).
      { destruct (startswith_fence_head _ E) as [r Hr]. rewrite Hr.
        change (splitlines_go [96%N] r <> []).
        apply splitlines_go_nonempty. discriminate. }
      destruct (splitlines (strip response_text)) as [|l0 ls]; [contradiction|].
      simpl. eexists. reflexivity.
    - eexists. reflexivity. }
  destruct H as [c Hc]. rewrite Hc. reflexivity.
Qed.

(** ** Dictionaries *)

Section DictFacts.

Context {V : Type}.
Implicit Types (d acc : dict V) (k : str) (v : V).

Lemma get_set_same d k v : get (set d k v) k = Some v.
Proof.
  induction d as [|[k' v'] d IH]; simpl.
  - rewrite eqb_refl. reflexivity.
  - destruct (PyStr.eqb k k') eqn:E; simpl; rewrite E; [reflexivity|exact IH].
Qed.

Lemma get_set_other d k k' v : k <> k' -> get (set d k v) k' = get d k'.
Proof.
  intro Hne.
  assert (Hk : PyStr.eqb k' k = false) by (apply eqb_neq; congruence).
  induction d as [|[k0 v0] d IH]; simpl.
  - rewrite Hk. reflexivity.
  - destruct (PyStr.eqb k k0) eqn:E; simpl.
    + apply eqb_eq in E. subst k0. rewrite Hk. reflexivity.
    + destruct (PyStr.eqb k' k0); [reflexivity|exact IH].
Qed.

Lemma get_none_iff d k : get d k = None <-> ~ In k (keys d).
Proof.
  induction d as [|[k0 v0] d IH]; simpl.
  - split; [intros _ []|reflexivity].
  - destruct (PyStr.eqb k k0) eqn:E.
    + apply eqb_eq in E. subst k0. split; [discriminate|].
      intro H. exfalso. apply H. left. reflexivity.
    + apply eqb_neq in E. rewrite IH. split.
      * intros H [H1|H1]; [congruence|contradiction].
      * intros H H1. apply H. right. exact H1.
Qed.

Lemma get_some_in d k : get d k <> None <-> In k (keys d).
Proof.
  destruct (in_dec str_eq_dec k (keys d)) as [Hin|Hout]; split; intro H;
    try assumption.
  - intro E. apply get_none_iff in E. contradiction.
  - exfalso. apply H. apply get_none_iff. exact Hout.
  - contradiction.
Qed.

Lemma mem_true_iff d k : mem d k = true <-> In k (keys d).
Proof.
  unfold mem. rewrite <- get_some_in.
  destruct (get d k); split; congruence.
Qed.

Lemma mem_false_iff d k : mem d k = false <-> ~ In k (keys d).
Proof.
  rewrite <- mem_true_iff. destruct (mem d k); split; congruence.
Qed.

Lemma keys_set d k v :
  keys (set d k v) = if mem d k then keys d else keys d ++ [k].
Proof.
  unfold mem. induction d as [|[k0 v0] d IH]; simpl; [reflexivity|].
  destruct (PyStr.eqb k k0) eqn:E; simpl; [reflexivity|].
  fold (keys (set d k v)). rewrite IH. destruct (get d k); reflexivity.
Qed.

Lemma in_keys_set d k v k' :
  In k' (keys (set d k v)) <-> k' = k \/ In k' (keys d).
Proof.
  rewrite keys_set. destruct (mem d k) eqn:E.
  - apply mem_true_iff in E. split; [tauto|].
    intros [->|H]; assumption.
  - rewrite in_app_iff. simpl. split; intros H; intuition congruence.
Qed.

Lemma NoDup_keys_set d k v : NoDup (keys d) -> NoDup (keys (set d k v)).
Proof.
  intro H. rewrite keys_set. destruct (mem d k) eqn:E; [exact H|].
  apply mem_false_iff in E.
  apply NoDup_app; [exact H|repeat constructor; intros []|].
  intros a Ha [<-|[]]. contradiction.
Qed.

(** The dict comprehension over a list of keys, continued from [acc]. *)
Lemma get_fold_set ks v acc k :
  get (fold_left (fun a x => set a x v) ks acc) k =
  if in_dec str_eq_dec k ks then Some v else get acc k.
Proof.
  revert acc. induction ks as [|x ks IH]; intro acc; simpl; [reflexivity|].
  rewrite IH. destruct (str_eq_dec x k) as [->|Hne].
  - destruct (in_dec str_eq_dec k ks); [reflexivity|apply get_set_same].
  - destruct (in_dec str_eq_dec k ks); [reflexivity|].
    apply get_set_other. exact Hne.
Qed.

Lemma NoDup_keys_fold_set ks v acc :
  NoDup (keys acc) -> NoDup (keys (fold_left (fun a x => set a x v) ks acc)).
Proof.
  revert acc. induction ks as [|x ks IH]; intros acc H; simpl; [exact H|].
  apply IH. apply NoDup_keys_set. exact H.
Qed.

Lemma keys_fold_set_fresh ks v acc :
  NoDup ks -> (forall k, In k ks -> ~ In k (keys acc)) ->
  keys (fold_left (fun a x => set a x v) ks acc) = keys acc ++ ks.
Proof.
  revert acc. induction ks as [|x ks IH]; intros acc Hnd Hfresh; simpl.
  - rewrite app_nil_r. reflexivity.
  - inversion Hnd as [|? ? Hx Hnd']; subst.
    rewrite IH; [|exact Hnd'|].
    + rewrite keys_set.
      assert (E : mem acc x = false)
        by (apply mem_false_iff; apply Hfresh; left; reflexivity).
      rewrite E, <- app_assoc. reflexivity.
    + intros k Hk Hin. apply in_keys_set in Hin. destruct Hin as [->|Hin].
      * contradiction.
      * apply (Hfresh k); [right; exact Hk|exact Hin].
Qed.

Lemma get_from_keys ks v k :
  get (from_keys ks v) k = if in_dec str_eq_dec k ks then Some v else None.
Proof. unfold from_keys. rewrite get_fold_set. reflexivity. Qed.

Lemma NoDup_keys_from_keys ks v : NoDup (keys (from_keys ks v)).
Proof. apply NoDup_keys_fold_set. constructor. Qed.

Lemma keys_from_keys ks v : NoDup ks -> keys (from_keys ks v) = ks.
Proof.
  intro H. unfold from_keys. rewrite keys_fold_set_fresh; auto.
Qed.

Lemma NoDup_keys_of_pairs {A : Type} (f : A -> V) (pairs : list (str * A)) acc :
  NoDup (keys acc) -> NoDup (keys (of_pairs f pairs acc)).
Proof.
  revert acc. induction pairs as [|[k a] pairs IH]; intros acc H; simpl;
    [exact H|].
  apply IH. apply NoDup_keys_set. exact H.
Qed.

End DictFacts.

Lemma NoDup_keys_object_dict (members : list (str * json)) :
  NoDup (keys (object_dict members)).
Proof. apply NoDup_keys_of_pairs. constructor. Qed.

Lemma count_occ_keys_once {V : Type} (d : dict V) (k : str) :
  NoDup (keys d) -> get d k <> None -> count_occ str_eq_dec (keys d) k = 1.
Proof.
  intros Hnd Hk. apply NoDup_count_occ'; [exact Hnd|].
  apply get_some_in. exact Hk.
Qed.

(** ** The response parser *)

Lemma fill_missing_dict (d : dict PyVal) (categories : list str) :
  fill_missing (PDict d) categories = Ret (PDict (fill_dict d categories)).
Proof.
  unfold fill_dict. revert d.
  induction categories as [|item rest IH]; intro d; simpl; [reflexivity|].
  destruct (mem d item); simpl; apply IH.
Qed.

Lemma set_fresh {V : Type} (d : dict V) k v :
  get d k = None -> set d k v = d ++ [(k, v)].
Proof.
  induction d as [|[k0 v0] d IH]; simpl; [reflexivity|].
  destruct (PyStr.eqb k k0); [discriminate|].
  intro H. rewrite IH; [reflexivity|exact H].
Qed.

Lemma mem_false_get {V : Type} (d : dict V) k : mem d k = false -> get d k = None.
Proof. unfold mem. destruct (get d k); [discriminate|reflexivity]. Qed.

(** The decoded entries stay as they are, in their order; what is added
    follows them. *)
Lemma fill_dict_extends (d : dict PyVal) (categories : list str) :
  exists added,
    fill_dict d categories = d ++ map (fun c => (c, absent_flag)) added /\
    forall c, In c added -> In c categories.
Proof.
  unfold fill_dict. revert d.
  induction categories as [|item rest IH]; intro d; simpl.
  - exists []. rewrite app_nil_r. split; [reflexivity|intros c []].
  - destruct (mem d item) eqn:E.
    + destruct (IH d) as [added [H1 H2]]. exists added. split; [exact H1|].
      intros c Hc. right. apply H2. exact Hc.
    + destruct (IH (set d item absent_flag)) as [added [H1 H2]].
      exists (item :: added). split.
      * rewrite H1, (set_fresh d item _ (mem_false_get d item E)), <- app_assoc.
        reflexivity.
      * intros c [<-|Hc]; [left; reflexivity|right; apply H2; exact Hc].
Qed.

Lemma fill_dict_keeps (d : dict PyVal) (categories : list str) k v :
  get d k = Some v -> get (fill_dict d categories) k = Some v.
Proof.
  unfold fill_dict. revert d.
  induction categories as [|item rest IH]; intros d H; simpl; [exact H|].
  apply IH. destruct (mem d item) eqn:E; [exact H|].
  rewrite get_set_other; [exact H|].
  intros ->. apply mem_false_get in E. congruence.
Qed.

Lemma fill_dict_fills (d : dict PyVal) (categories : list str) c :
  In c categories -> get d c = None ->
  get (fill_dict d categories) c = Some absent_flag.
Proof.
  unfold fill_dict. revert d.
  induction categories as [|item rest IH]; intros d Hin Hnone; simpl;
    [destruct Hin|].
  destruct (str_eq_dec item c) as [->|Hne].
  - unfold mem. rewrite Hnone.
    apply (fill_dict_keeps _ rest). apply get_set_same.
  - destruct Hin as [Heq|Hin]; [contradiction|].
    apply IH; [exact Hin|].
    destruct (mem d item); [exact Hnone|].
    rewrite get_set_other; [exact Hnone|exact Hne].
Qed.

Lemma fill_dict_covers (d : dict PyVal) (categories : list str) c :
  In c categories -> get (fill_dict d categories) c <> None.
Proof.
  intro Hin. destruct (get d c) as [v|] eqn:E.
  - rewrite (fill_dict_keeps d categories c v E). discriminate.
  - rewrite (fill_dict_fills d categories c Hin E). discriminate.
Qed.

Lemma fill_dict_NoDup (d : dict PyVal) (categories : list str) :
  NoDup (keys d) -> NoDup (keys (fill_dict d categories)).
Proof.
  unfold fill_dict. revert d.
  induction categories as [|item rest IH]; intros d H; simpl; [exact H|].
  apply IH. destruct (mem d item); [exact H|].
  apply NoDup_keys_set. exact H.
Qed.

Lemma fill_dict_keys (d : dict PyVal) (categories : list str) k :
  In k (keys (fill_dict d categories)) -> In k (keys d) \/ In k categories.
Proof.
  destruct (fill_dict_extends d categories) as [added [H1 H2]].
  rewrite H1. unfold keys. rewrite map_app, in_app_iff, map_map. simpl.
  rewrite map_id. intros [H|H]; [left; exact H|right; apply H2; exact H].
Qed.

Lemma absent_record_all_absent (categories : list str) :
  all_absent categories (absent_record categories).
Proof.
  eexists. split; [reflexivity|]. split.
  - apply NoDup_keys_from_keys.
  - intro k. apply get_from_keys.
Qed.

Lemma all_absent_covers (categories : list str) (v : PyVal) :
  all_absent categories v -> covers categories v.
Proof.
  intros [d [-> [_ H]]]. exists d. split; [reflexivity|].
  intros c Hc. rewrite H.
  destruct (in_dec str_eq_dec c categories); [discriminate|contradiction].
Qed.

Section ParserFacts.

Variable json_parse : str -> option json.

(** [parse_response] returns a value for every text and category list. *)
Lemma parse_response_total (response_text : str) (categories : list str) :
  parse_response json_parse response_text categories =
  Ret (parse_fragment json_parse response_text categories).
Proof.
  unfold parse_fragment, parse_response.
  rewrite clean_fragment_total. simpl.
  destruct (json_loads json_parse (cleaned_text response_text)) as [v|e];
    simpl; [|reflexivity].
  destruct (fill_missing v categories); reflexivity.
Qed.

(** A text the decoder rejects gives the all-absent record. *)
Lemma parse_response_undecodable (response_text : str) (categories : list str) :
  json_parse (cleaned_text response_text) = None ->
  parse_response json_parse response_text categories =
  Ret (absent_record categories).
Proof.
  intro H. unfold parse_response, json_loads.
  rewrite clean_fragment_total. simpl. rewrite H. reflexivity.
Qed.

Lemma parse_response_object_eq (response_text : str) (categories : list str)
    (members : list (str * json)) :
  json_parse (cleaned_text response_text) = Some (JObject members) ->
  parse_response json_parse response_text categories =
  Ret (PDict (fill_dict (object_dict members) categories)).
Proof.
  intro H. unfold parse_response, json_loads.
  rewrite clean_fragment_total. simpl. rewrite H. simpl.
  fold (object_dict members). rewrite fill_missing_dict. reflexivity.
Qed.

End ParserFacts.

(** Fragments the code does decode. When the text the code hands to the
    decoder (see [clean_fragment]) decodes to a JSON object,
    [parse_response] returns a dict in which every listed category is a
    key exactly once; a category the object lacks maps to [""], every
    entry of the object (a listed category or any other key) keeps its
    decoded value, and the decoded entries come first, in their order. *)
Theorem parse_response_object_record (json_parse : str -> option json)
    (response_text : str) (categories : list str) (members : list (str * json)) :
  json_parse (cleaned_text response_text) = Some (JObject members) ->
  exists d,
    parse_response json_parse response_text categories = Ret (PDict d) /\
    (forall c, In c categories -> count_occ str_eq_dec (keys d) c = 1) /\
    (forall c, In c categories -> get (object_dict members) c = None ->
               get d c = Some absent_flag) /\
    (forall k v, get (object_dict members) k = Some v -> get d k = Some v) /\
    (exists added,
        d = object_dict members ++ map (fun c => (c, absent_flag)) added /\
        forall c, In c added -> In c categories).
Proof.
  intro H. exists (fill_dict (object_dict members) categories).
  split; [apply parse_response_object_eq; exact H|].
  split; [|split; [|split]].
  - intros c Hc. apply count_occ_keys_once.
    + apply fill_dict_NoDup. apply NoDup_keys_object_dict.
    + apply fill_dict_covers. exact Hc.
  - intros c Hc Hnone. apply fill_dict_fills; assumption.
  - intros k v Hk. apply fill_dict_keeps. exact Hk.
  - apply fill_dict_extends.
Qed.

Lemma parse_response_object_record_witness :
  let text := fence ++ u "json" ++ [10%N] ++ q "{'grammar': '1', 'note': 7}"
              ++ [10%N] ++ fence in
  let categories := [u "grammar"; u "pronunciation"] in
  let members := [(u "grammar", JString (u "1")); (u "note", JInt 7)] in
  JsonRef.parse (cleaned_text text) = Some (JObject members) /\
  exists d,
    parse_response JsonRef.parse text categories = Ret (PDict d) /\
    (forall c, In c categories -> count_occ str_eq_dec (keys d) c = 1) /\
    (forall c, In c categories -> get (object_dict members) c = None ->
               get d c = Some absent_flag) /\
    (forall k v, get (object_dict members) k = Some v -> get d k = Some v) /\
    (exists added,
        d = object_dict members ++ map (fun c => (c, absent_flag)) added /\
        forall c, In c added -> In c categories).
Proof.
  intros text categories members. split.
  - reflexivity.
  - apply (parse_response_object_record JsonRef.parse text categories members).
    reflexivity.
Defined.

(** C3, at a failing input. The text [["a"]] is valid JSON but no
    object; with the category list [["a"]] the membership test of the
    loop succeeds on the array, nothing raises, and [parse_response]
    returns the array itself instead of the all-absent record. *)
Theorem parse_response_array_returned :
  JsonRef.parse (cleaned_text (q "['a']")) = Some (JArray [JString (u "a")]) /\
  parse_response JsonRef.parse (q "['a']") [u "a"] = Ret (PList [PStr (u "a")]) /\
  ~ all_absent [u "a"] (PList [PStr (u "a")]).
Proof.
  split; [reflexivity|]. split; [reflexivity|].
  intros [d [H _]]. discriminate H.
Qed.

(** The same slip on a JSON string that has the category as a substring,
    and on any JSON value when the category list is empty. *)
Example parse_response_string_returned :
  parse_response JsonRef.parse (q "'grammar'") [u "gram"] = Ret (PStr (u "grammar")).
Proof. reflexivity. Qed.

Example parse_response_number_returned :
  parse_response JsonRef.parse (u "5") [] = Ret (PInt 5).
Proof. reflexivity. Qed.

(** Non-object values on which the loop raises do give the fallback. *)
Example parse_response_number_fallback :
  parse_response JsonRef.parse (u "5") [u "a"] = Ret (absent_record [u "a"]).
Proof. reflexivity. Qed.

Example parse_response_array_fallback :
  parse_response JsonRef.parse (q "['a']") [u "a"; u "b"] =
  Ret (absent_record [u "a"; u "b"]).
Proof. reflexivity. Qed.

(** ** The batch classifier *)

Lemma pad_results_eq (results : list PyVal) (n : nat) (categories : list str) :
  pad_results results n categories =
  results ++ repeat (absent_record categories) (n - length results).
Proof.
  funelim (pad_results results n categories).
  - rewrite H. rewrite length_app, <- app_assoc. simpl.
    replace (n - length results) with (S (n - (length results + 1))) by lia.
    reflexivity.
  - replace (n - length results) with 0 by lia.
    simpl. rewrite app_nil_r. reflexivity.
Qed.

Lemma reconcile_eq (parsed : list PyVal) (n : nat) (categories : list str) :
  truncate_results (pad_results parsed n categories) n =
  reconcile_spec parsed n categories.
Proof.
  rewrite pad_results_eq. unfold truncate_results, reconcile_spec.
  rewrite length_app, repeat_length.
  destruct (Nat.ltb (length parsed) n) eqn:E1.
  - apply Nat.ltb_lt in E1.
    replace (Nat.ltb n (length parsed + (n - length parsed))) with false;
      [reflexivity|].
    symmetry. apply Nat.ltb_ge. lia.
  - apply Nat.ltb_ge in E1.
    replace (n - length parsed) with 0 by lia.
    simpl. rewrite Nat.add_0_r, app_nil_r. reflexivity.
Qed.

Lemma reconcile_spec_length (parsed : list PyVal) (n : nat) (categories : list str) :
  length (reconcile_spec parsed n categories) = n.
Proof.
  unfold reconcile_spec.
  destruct (Nat.ltb (length parsed) n) eqn:E1.
  - apply Nat.ltb_lt in E1. rewrite length_app, repeat_length. lia.
  - apply Nat.ltb_ge in E1. destruct (Nat.ltb n (length parsed)) eqn:E2.
    + apply Nat.ltb_lt in E2. rewrite length_firstn. lia.
    + apply Nat.ltb_ge in E2. lia.
Qed.

Section ClassifierFacts.

Variable json_parse : str -> option json.

Lemma parse_parts_eq (parts : list str) (categories : list str) (results : list PyVal) :
  parse_parts json_parse parts categories results =
  Ret (results ++
       map (fun segment => parse_fragment json_parse segment categories)
           (filter nonempty (map strip parts))).
Proof.
  revert results. induction parts as [|part rest IH]; intro results; simpl.
  - rewrite app_nil_r. reflexivity.
  - destruct (nonempty (strip part)); [|apply IH].
    rewrite parse_response_total. simpl. rewrite IH, <- app_assoc. reflexivity.
Qed.

Lemma process_batch_dialogue_success (dialogues categories : list str)
    (delimiter response_text : str) :
  delimiter <> [] ->
  process_batch_dialogue json_parse dialogues categories delimiter (Ret response_text) =
  Ret (classify_spec json_parse dialogues categories delimiter response_text).
Proof.
  intro Hd. unfold process_batch_dialogue, split, classify_spec, segments_spec.
  destruct delimiter as [|c delimiter]; [contradiction|]. simpl.
  rewrite parse_parts_eq. simpl. rewrite reconcile_eq. reflexivity.
Qed.

Lemma process_batch_dialogue_failure (dialogues categories : list str)
    (delimiter : str) (e : exn) :
  process_batch_dialogue json_parse dialogues categories delimiter (Exc e) =
  Ret (repeat (absent_record categories) (length dialogues)).
Proof.
  simpl. f_equal. induction dialogues as [|x dialogues IH]; simpl;
    [reflexivity|]. rewrite IH. reflexivity.
Qed.

End ClassifierFacts.

(** C1. With a non-empty delimiter (the default is ["-----"]), whatever
    the category list and whatever the outcome of the model call (a
    response text or an exception), [process_batch_dialogue] returns, and
    what it returns has one entry per input text. *)
Theorem process_batch_dialogue_length (json_parse : str -> option json)
    (dialogues categories : list str) (delimiter : str) (response : res str) :
  delimiter <> [] ->
  exists results,
    process_batch_dialogue json_parse dialogues categories delimiter response =
    Ret results /\
    length results = length dialogues.
Proof.
  intro Hd. destruct response as [response_text|e].
  - rewrite process_batch_dialogue_success by exact Hd.
    eexists. split; [reflexivity|]. apply reconcile_spec_length.
  - rewrite process_batch_dialogue_failure.
    eexists. split; [reflexivity|]. apply repeat_length.
Qed.

Lemma process_batch_dialogue_length_witness :
  default_delimiter <> [] /\
  exists results,
    process_batch_dialogue JsonRef.parse [u "x"; u "y"; u "z"] [u "grammar"]
      default_delimiter (Ret (q "{'grammar': '1'}-----not json")) = Ret results /\
    length results = length [u "x"; u "y"; u "z"].
Proof.
  split.
  - discriminate.
  - apply (process_batch_dialogue_length JsonRef.parse). discriminate.
Defined.

(** The scenarios of the specification. *)
Example scenario_padded :
  process_batch_dialogue JsonRef.parse [u "a"; u "b"; u "c"]
    [u "grammar"; u "pronunciation"] default_delimiter
    (Ret (q "{'grammar':'1'}-----{'pronunciation':'1'}")) =
  Ret [ PDict [(u "grammar", PStr (u "1")); (u "pronunciation", PStr [])];
        PDict [(u "pronunciation", PStr (u "1")); (u "grammar", PStr [])];
        PDict [(u "grammar", PStr []); (u "pronunciation", PStr [])] ].
Proof. reflexivity. Qed.

Example scenario_truncated :
  process_batch_dialogue JsonRef.parse [u "a"; u "b"; u "c"] [u "g"]
    default_delimiter
    (Ret (q "{'g':'1'}-----{'g':''}----- -----{'g':'1'}-----{'g':'x'}")) =
  Ret [ PDict [(u "g", PStr (u "1"))];
        PDict [(u "g", PStr [])];
        PDict [(u "g", PStr (u "1"))] ].
Proof. reflexivity. Qed.

(** An empty delimiter makes [split] raise outside the [try] block. *)
Example empty_delimiter_raises :
  process_batch_dialogue JsonRef.parse [u "a"] [u "g"] [] (Ret (u "{}")) =
  Exc ValueError.
Proof. reflexivity. Qed.

(** C5. When the model call raises, [process_batch_dialogue] returns
    (it raises nothing) one record per input text, each a dict in which
    every category maps to [""] and no other key occurs. *)
Theorem process_batch_dialogue_backend_failure (json_parse : str -> option json)
    (dialogues categories : list str) (delimiter : str) (e : exn) :
  exists results,
    process_batch_dialogue json_parse dialogues categories delimiter (Exc e) =
    Ret results /\
    length results = length dialogues /\
    Forall (all_absent categories) results.
Proof.
  rewrite process_batch_dialogue_failure.
  eexists. split; [reflexivity|]. split; [apply repeat_length|].
  apply Forall_forall. intros r Hr. apply repeat_spec in Hr. subst r.
  apply absent_record_all_absent.
Qed.

Example scenario_backend_raises :
  process_batch_dialogue JsonRef.parse [u "a"; u "b"]
    [u "grammar"; u "pronunciation"] default_delimiter (Exc BackendError) =
  Ret [ PDict [(u "grammar", PStr []); (u "pronunciation", PStr [])];
        PDict [(u "grammar", PStr []); (u "pronunciation", PStr [])] ].
Proof. reflexivity. Qed.

(** *** Which records have every category *)

Section Coverage.

Variable json_parse : str -> option json.

Lemma parse_fragment_object_covers (segment : str) (categories : list str)
    (members : list (str * json)) :
  json_parse (cleaned_text segment) = Some (JObject members) ->
  covers categories (parse_fragment json_parse segment categories).
Proof.
  intro H. unfold parse_fragment.
  rewrite (parse_response_object_eq json_parse segment categories members H).
  eexists. split; [reflexivity|].
  intros c Hc. apply fill_dict_covers. exact Hc.
Qed.

Lemma parse_fragment_undecodable_absent (segment : str) (categories : list str) :
  json_parse (cleaned_text segment) = None ->
  all_absent categories (parse_fragment json_parse segment categories).
Proof.
  intro H. unfold parse_fragment.
  rewrite (parse_response_undecodable json_parse segment categories H).
  apply absent_record_all_absent.
Qed.

Lemma reconcile_spec_covers (parsed : list PyVal) (n : nat) (categories : list str) :
  Forall (covers categories) parsed ->
  Forall (covers categories) (reconcile_spec parsed n categories).
Proof.
  intro H. unfold reconcile_spec.
  destruct (Nat.ltb (length parsed) n).
  - apply Forall_app. split; [exact H|].
    apply Forall_forall. intros r Hr. apply repeat_spec in Hr. subst r.
    apply all_absent_covers, absent_record_all_absent.
  - destruct (Nat.ltb n (length parsed)); [|exact H].
    apply Forall_forall. intros r Hr.
    rewrite Forall_forall in H. apply H.
    rewrite <- (firstn_skipn n parsed). apply in_or_app. left. exact Hr.
Qed.

(** The parse-failure fallback, the backend-failure fallback, the
    padding and the records decoded from JSON objects all have an entry
    for every category. *)
Lemma process_batch_dialogue_covers (dialogues categories : list str)
    (delimiter : str) (response : res str) :
  delimiter <> [] ->
  (forall response_text segment,
      response = Ret response_text ->
      In segment (segments_spec response_text delimiter) ->
      json_parse (cleaned_text segment) = None \/
      exists members, json_parse (cleaned_text segment) = Some (JObject members)) ->
  exists results,
    process_batch_dialogue json_parse dialogues categories delimiter response =
    Ret results /\
    Forall (covers categories) results.
Proof.
  intros Hd Hseg. destruct response as [response_text|e].
  - rewrite process_batch_dialogue_success by exact Hd.
    eexists. split; [reflexivity|].
    apply reconcile_spec_covers. apply Forall_forall.
    intros r Hr. apply in_map_iff in Hr. destruct Hr as [segment [<- Hin]].
    destruct (Hseg response_text segment eq_refl Hin) as [Hnone|[members Hobj]].
    + apply all_absent_covers, parse_fragment_undecodable_absent. exact Hnone.
    + eapply parse_fragment_object_covers. exact Hobj.
  - rewrite process_batch_dialogue_failure.
    eexists. split; [reflexivity|].
    apply Forall_forall. intros r Hr. apply repeat_spec in Hr. subst r.
    apply all_absent_covers, absent_record_all_absent.
Qed.

End Coverage.

(** C6, at a failing input. The response [["a"]] for one text and the
    category list [["a"]] has a single fragment, a JSON array; the parser
    returns the array itself, and the batch result holds it: an entry
    that is no dict and has no flag for the category. *)
Theorem process_batch_dialogue_array_entry :
  process_batch_dialogue JsonRef.parse [u "some text"] [u "a"] default_delimiter
    (Ret (q "['a']")) = Ret [PList [PStr (u "a")]] /\
  ~ covers [u "a"] (PList [PStr (u "a")]).
Proof.
  split; [reflexivity|].
  intros [d [H _]]. discriminate H.
Qed.

(** ** Aggregation *)

(** The test of the code is the one of the specification: the flag is
    the string ["1"]; another value or a missing key does not count. *)
Lemma flagged_iff (record : dict PyVal) (category : str) :
  flagged record category = true <-> get record category = Some (PStr (u "1")).
Proof.
  unfold flagged, is_one, is_str.
  destruct (get record category) as [v|]; [|split; discriminate].
  destruct v; try (split; discriminate).
  rewrite eqb_eq. split; congruence.
Qed.

Lemma listed_cons_same (categories : list str) (c : str) :
  listed (c :: categories) c = (1 + listed categories c)%Z.
Proof.
  unfold listed. rewrite count_occ_cons_eq by reflexivity. lia.
Qed.

Lemma listed_cons_other (categories : list str) (c k : str) :
  c <> k -> listed (c :: categories) k = listed categories k.
Proof.
  intro H. unfold listed. rewrite count_occ_cons_neq by exact H. reflexivity.
Qed.

Lemma listed_NoDup (categories : list str) (c : str) :
  NoDup categories -> In c categories -> listed categories c = 1%Z.
Proof.
  intros Hnd Hin. unfold listed.
  rewrite (proj1 (NoDup_count_occ' str_eq_dec categories) Hnd c Hin). reflexivity.
Qed.

Lemma count_record_dict (record : dict PyVal) (categories : list str) (counts : dict Z) :
  (forall c, In c categories -> get counts c <> None) ->
  exists counts',
    count_record (PDict record) categories counts = Ret counts' /\
    keys counts' = keys counts /\
    forall k, get counts' k =
              option_map (fun z => (z + bump record categories k)%Z) (get counts k).
Proof.
  revert counts. induction categories as [|c rest IH]; intros counts Hpre.
  - exists counts. split; [reflexivity|]. split; [reflexivity|].
    intro k. unfold bump, listed. simpl.
    destruct (get counts k); simpl; [|reflexivity].
    destruct (flagged record k); f_equal; lia.
  - simpl. fold (flagged record c).
    assert (Hrest : forall counts1 : dict Z,
               keys counts1 = keys counts ->
               forall c', In c' rest -> get counts1 c' <> None).
    { intros counts1 Hk c' Hc'. apply get_some_in. rewrite Hk.
      apply get_some_in. apply Hpre. right. exact Hc'. }
    destruct (flagged record c) eqn:Ef.
    + unfold getitem.
      destruct (get counts c) as [z|] eqn:Ez;
        [|exfalso; apply (Hpre c); [left; reflexivity|exact Ez]].
      simpl.
      assert (Hkeys : keys (set counts c (z + 1)%Z) = keys counts).
      { rewrite keys_set. unfold mem. rewrite Ez. reflexivity. }
      destruct (IH (set counts c (z + 1)%Z) (Hrest _ Hkeys))
        as [counts' [H1 [H2 H3]]].
      exists counts'. split; [exact H1|]. split; [congruence|].
      intro k. rewrite H3. unfold bump.
      destruct (str_eq_dec c k) as [->|Hne].
      * rewrite get_set_same, Ez, Ef, listed_cons_same. cbn [option_map].
        f_equal. lia.
      * rewrite get_set_other by exact Hne.
        rewrite listed_cons_other by exact Hne. reflexivity.
    + destruct (IH counts (Hrest _ eq_refl)) as [counts' [H1 [H2 H3]]].
      exists counts'. split; [exact H1|]. split; [exact H2|].
      intro k. rewrite H3. unfold bump.
      destruct (str_eq_dec c k) as [->|Hne].
      * rewrite Ef. reflexivity.
      * rewrite listed_cons_other by exact Hne. reflexivity.
Qed.

Lemma flagged_count_cons (record : dict PyVal) (records : list (dict PyVal)) (k : str) :
  flagged_count (record :: records) k =
  ((if flagged record k then 1 else 0) + flagged_count records k)%Z.
Proof.
  unfold flagged_count. simpl. destruct (flagged record k); simpl length; lia.
Qed.

Lemma count_results_dicts (records : list (dict PyVal)) (categories : list str)
    (counts : dict Z) :
  (forall c, In c categories -> get counts c <> None) ->
  exists counts',
    count_results (map PDict records) categories counts = Ret counts' /\
    keys counts' = keys counts /\
    forall k, get counts' k =
              option_map (fun z => (z + listed categories k * flagged_count records k)%Z)
                         (get counts k).
Proof.
  revert counts. induction records as [|record records IH]; intros counts Hpre.
  - exists counts. split; [reflexivity|]. split; [reflexivity|].
    intro k. unfold flagged_count. simpl.
    destruct (get counts k); simpl; [|reflexivity]. f_equal. lia.
  - simpl.
    destruct (count_record_dict record categories counts Hpre)
      as [counts1 [H1 [H2 H3]]].
    rewrite H1. simpl.
    assert (Hpre1 : forall c, In c categories -> get counts1 c <> None).
    { intros c Hc. apply get_some_in. rewrite H2. apply get_some_in.
      apply Hpre. exact Hc. }
    destruct (IH counts1 Hpre1) as [counts' [H4 [H5 H6]]].
    exists counts'. split; [exact H4|]. split; [congruence|].
    intro k. rewrite H6, H3, flagged_count_cons. unfold bump.
    destruct (get counts k); simpl; [|reflexivity].
    f_equal. destruct (flagged record k); lia.
Qed.

(** The counts for any category list: a category listed several times is
    counted that many times per flagged record. *)
Lemma calculate_category_counts_general (records : list (dict PyVal))
    (categories : list str) :
  exists counts,
    calculate_category_counts (map PDict records) categories = Ret counts /\
    NoDup (keys counts) /\
    forall k, get counts k =
              if in_dec str_eq_dec k categories
              then Some (listed categories k * flagged_count records k)%Z
              else None.
Proof.
  unfold calculate_category_counts.
  destruct (count_results_dicts records categories (from_keys categories 0%Z))
    as [counts [H1 [H2 H3]]].
  - intros c Hc. rewrite get_from_keys.
    destruct (in_dec str_eq_dec c categories); [discriminate|contradiction].
  - exists counts. split; [exact H1|]. split.
    + rewrite H2. apply NoDup_keys_from_keys.
    + intro k. rewrite H3, get_from_keys.
      destruct (in_dec str_eq_dec k categories); reflexivity.
Qed.

Lemma calculate_category_counts_keys (records : list (dict PyVal))
    (categories : list str) (counts : dict Z) :
  NoDup categories ->
  calculate_category_counts (map PDict records) categories = Ret counts ->
  keys counts = categories.
Proof.
  unfold calculate_category_counts. intros Hnd H.
  destruct (count_results_dicts records categories (from_keys categories 0%Z))
    as [counts' [H1 [H2 _]]].
  - intros c Hc. rewrite get_from_keys.
    destruct (in_dec str_eq_dec c categories); [discriminate|contradiction].
  - rewrite H1 in H. injection H as <-. rewrite H2.
    apply keys_from_keys. exact Hnd.
Qed.

Lemma flagged_count_bounds (records : list (dict PyVal)) (k : str) :
  (0 <= flagged_count records k <= Z.of_nat (length records))%Z.
Proof.
  unfold flagged_count. pose proof (filter_length_le (fun r => flagged r k) records).
  lia.
Qed.

(** C7, as amended: for a category list without repeated entries.
    [calculate_category_counts] returns a dict whose keys are the given
    categories, in their order; the value of each is the number of
    records whose flag for it is the string ["1"] (another value or a
    missing key does not count), so a category no record has is there
    with 0, and all are 0 for the empty record list. *)
Theorem calculate_category_counts_distinct (records : list (dict PyVal))
    (categories : list str) :
  NoDup categories ->
  exists counts,
    calculate_category_counts (map PDict records) categories = Ret counts /\
    keys counts = categories /\
    (forall c, In c categories -> get counts c = Some (flagged_count records c)) /\
    (forall record c,
        flagged record c = true <-> get record c = Some (PStr (u "1"))) /\
    (records = [] -> forall c, In c categories -> get counts c = Some 0%Z).
Proof.
  intro Hnd.
  destruct (calculate_category_counts_general records categories)
    as [counts [H1 [_ H3]]].
  assert (Hget : forall c, In c categories ->
                           get counts c = Some (flagged_count records c)).
  { intros c Hc. rewrite H3.
    destruct (in_dec str_eq_dec c categories); [|contradiction].
    rewrite (listed_NoDup categories c Hnd Hc). f_equal. lia. }
  exists counts. split; [exact H1|]. split; [|split; [|split]].
  - eapply calculate_category_counts_keys; eassumption.
  - exact Hget.
  - apply flagged_iff.
  - intros -> c Hc. rewrite (Hget c Hc). reflexivity.
Qed.

Lemma calculate_category_counts_distinct_witness :
  let records :=
    [ [(u "grammar", PStr (u "1")); (u "pronunciation", PStr [])];
      [(u "grammar", PStr (u "1")); (u "pronunciation", PInt 1)];
      [(u "pronunciation", PStr (u "1"))] ] in
  let categories := [u "grammar"; u "pronunciation"; u "culture"] in
  NoDup categories /\
  calculate_category_counts (map PDict records) categories =
  Ret [(u "grammar", 2%Z); (u "pronunciation", 1%Z); (u "culture", 0%Z)] /\
  exists counts,
    calculate_category_counts (map PDict records) categories = Ret counts /\
    keys counts = categories /\
    (forall c, In c categories -> get counts c = Some (flagged_count records c)) /\
    (forall record c,
        flagged record c = true <-> get record c = Some (PStr (u "1"))) /\
    (records = [] -> forall c, In c categories -> get counts c = Some 0%Z).
Proof.
  intros records categories.
  assert (Hnd : NoDup categories).
  { repeat constructor; simpl; intuition discriminate. }
  split; [exact Hnd|]. split; [reflexivity|].
  apply (calculate_category_counts_distinct records categories Hnd).
Defined.

(** C7 as stated fails when a category is listed twice: one flagged
    record then counts twice. *)
Lemma calculate_category_counts_repeated :
  let records := [ [(u "a", PStr (u "1"))] ] in
  let categories := [u "a"; u "a"] in
  calculate_category_counts (map PDict records) categories = Ret [(u "a", 2%Z)] /\
  flagged_count records (u "a") = 1%Z /\
  ~ (exists counts,
        calculate_category_counts (map PDict records) categories = Ret counts /\
        get counts (u "a") = Some (flagged_count records (u "a"))).
Proof.
  intros records categories. split; [reflexivity|]. split; [reflexivity|].
  intros [counts [H1 H2]].
  vm_compute in H1. injection H1 as <-. vm_compute in H2. discriminate H2.
Qed.

(** C10, as amended: for a category list without repeated entries, every
    value of the dict [calculate_category_counts] returns is an integer
    between 0 and the number of records. *)
Theorem calculate_category_counts_bounded (records : list (dict PyVal))
    (categories : list str) :
  NoDup categories ->
  exists counts,
    calculate_category_counts (map PDict records) categories = Ret counts /\
    forall c v, get counts c = Some v ->
                (0 <= v <= Z.of_nat (length records))%Z.
Proof.
  intro Hnd.
  destruct (calculate_category_counts_general records categories)
    as [counts [H1 [_ H3]]].
  exists counts. split; [exact H1|].
  intros c v Hv. rewrite H3 in Hv.
  destruct (in_dec str_eq_dec c categories) as [Hc|]; [|discriminate].
  rewrite (listed_NoDup categories c Hnd Hc), Z.mul_1_l in Hv.
  injection Hv as <-.
  pose proof (flagged_count_bounds records c) as Hb.
  unfold dict in *. lia.
Qed.

Lemma calculate_category_counts_bounded_witness :
  let records := [ [(u "x", PStr (u "1"))]; [(u "y", PStr (u "1"))] ] in
  let categories := [u "x"; u "y"] in
  NoDup categories /\
  exists counts,
    calculate_category_counts (map PDict records) categories = Ret counts /\
    forall c v, get counts c = Some v ->
                (0 <= v <= Z.of_nat (length records))%Z.
Proof.
  intros records categories.
  assert (Hnd : NoDup categories).
  { repeat constructor; simpl; intuition discriminate. }
  split; [exact Hnd|].
  apply (calculate_category_counts_bounded records categories Hnd).
Defined.

(** C10 as stated fails when a category is listed three times: the one
    record with the flag gives the count 3. *)
Lemma calculate_category_counts_exceeds :
  let records := [ [(u "x", PStr (u "1"))] ] in
  let categories := [u "x"; u "x"; u "x"] in
  calculate_category_counts (map PDict records) categories = Ret [(u "x", 3%Z)] /\
  ~ (3 <= Z.of_nat (length records))%Z.
Proof.
  intros records categories. split; [reflexivity|].
  subst records. simpl. lia.
Qed.

(** A value that is no dict has no [get]: the count raises. *)
Example calculate_category_counts_on_array :
  calculate_category_counts [PList [PStr (u "a")]] [u "a"] = Exc AttributeError.
Proof. reflexivity. Qed.

(** *** The store *)









(** ** The category list of the session *)

Lemma strip_fixed_trimmed (s : str) : strip s = s -> trimmed s.
Proof. intro H. rewrite <- H. apply strip_trimmed. Qed.

Lemma nonempty_true (s : str) : nonempty s = true -> s <> [].
Proof. destruct s; [discriminate|]. intros _. discriminate. Qed.

Lemma parse_categories_entries (categories_text : str) :
  Forall well_formed_entry (parse_categories categories_text).
Proof.
  unfold parse_categories. apply Forall_forall. intros c Hc.
  apply in_map_iff in Hc. destruct Hc as [part [<- Hpart]].
  apply filter_In in Hpart. destruct Hpart as [_ Hne].
  split; [apply nonempty_true; exact Hne|apply strip_trimmed].
Qed.

Lemma default_categories_entries : Forall well_formed_entry default_categories.
Proof.
  unfold default_categories.
  repeat (constructor; [split; [discriminate|apply strip_fixed_trimmed; reflexivity]|]).
  constructor.
Qed.

Lemma update_categories_cases (categories_text : str) (cs : list str) :
  (parse_categories categories_text = [] /\
   update_categories categories_text cs = (cs, Error)) \/
  (parse_categories categories_text <> [] /\
   update_categories categories_text cs =
   (parse_categories categories_text,
    Success (length (parse_categories categories_text)))).
Proof.
  unfold update_categories.
  destruct (parse_categories categories_text) as [|c rest].
  - left. split; reflexivity.
  - right. split; [discriminate|reflexivity].
Qed.

Lemma reachable_invariant (cs : list str) :
  reachable cs -> cs <> [] /\ Forall well_formed_entry cs.
Proof.
  induction 1 as [|categories_text cs Hreach [IH1 IH2]].
  - split; [discriminate|apply default_categories_entries].
  - destruct (update_categories_cases categories_text cs) as [[_ E]|[Hne E]];
      rewrite E; simpl.
    + split; assumption.
    + split; [exact Hne|apply parse_categories_entries].
Qed.

(** C9, as amended: entries may repeat. After an update of the category
    list from the text area, the list of the session is not empty and
    each entry is a non-empty string with no white space around it; an
    update whose text has no such entry is refused and leaves the list as
    it was, any other installs the entries of the text. *)
Theorem update_categories_invariant (categories_text : str) (cs : list str) :
  reachable cs ->
  let cs' := fst (update_categories categories_text cs) in
  cs' <> [] /\
  Forall well_formed_entry cs' /\
  (parse_categories categories_text = [] ->
   update_categories categories_text cs = (cs, Error)) /\
  (parse_categories categories_text <> [] ->
   cs' = parse_categories categories_text).
Proof.
  intros Hreach cs'.
  destruct (reachable_invariant _ (reach_update categories_text cs Hreach))
    as [H1 H2].
  split; [exact H1|]. split; [exact H2|].
  destruct (update_categories_cases categories_text cs) as [[E1 E2]|[E1 E2]].
  - split; [intros _; exact E2|intro H; contradiction].
  - split; [intro H; contradiction|].
    intros _. unfold cs'. rewrite E2. reflexivity.
Qed.

Lemma update_categories_invariant_witness :
  let text := u "  grammar " ++ [10%N] ++ [10%N] ++ u "listening" in
  reachable default_categories /\
  fst (update_categories text default_categories) = [u "grammar"; u "listening"] /\
  fst (update_categories text default_categories) <> [] /\
  Forall well_formed_entry (fst (update_categories text default_categories)).
Proof.
  intro text.
  split; [apply reach_init|]. split; [reflexivity|].
  destruct (update_categories_invariant text default_categories reach_init)
    as [H1 [H2 _]].
  split; [exact H1|exact H2].
Defined.

(** C9 as stated fails on uniqueness: the handler keeps a repeated line. *)
Lemma update_categories_repeated_entry :
  let text := u "a" ++ [10%N] ++ u "a" in
  reachable default_categories /\
  update_categories text default_categories = ([u "a"; u "a"], Success 2) /\
  ~ NoDup (fst (update_categories text default_categories)).
Proof.
  intro text. split; [apply reach_init|]. split; [reflexivity|].
  simpl. intro H. inversion H as [|x l Hx _]; subst.
  apply Hx. left. reflexivity.
Qed.

(** An update with blank lines only is refused. *)
Example update_categories_blank :
  update_categories ([32; 10; 9; 10]%N) [u "kept"] = ([u "kept"], Error).
Proof. reflexivity. Qed.

(** * Further properties of the code *)

(** ** White space around a fragment *)

Lemma lstrip_blank (a : str) : blank a -> lstrip a = [].
Proof.
  induction a as [|c a IH]; intro H; simpl; [reflexivity|].
  rewrite (H c) by (left; reflexivity).
  apply IH. intros x Hx. apply H. right. exact Hx.
Qed.

Lemma lstrip_blank_app (a t : str) : blank a -> lstrip (a ++ t) = lstrip t.
Proof.
  induction a as [|c a IH]; intro H; simpl; [reflexivity|].
  rewrite (H c) by (left; reflexivity).
  apply IH. intros x Hx. apply H. right. exact Hx.
Qed.

Lemma blank_rev (b : str) : blank b -> blank (rev b).
Proof. intros H c Hc. apply H. apply in_rev. exact Hc. Qed.

Lemma rstrip_app_blank (t b : str) : blank b -> rstrip (t ++ b) = rstrip t.
Proof.
  intro H. unfold rstrip. rewrite rev_app_distr.
  rewrite lstrip_blank_app by (apply blank_rev; exact H). reflexivity.
Qed.

Lemma strip_blank (s : str) : blank s -> strip s = [].
Proof. intro H. unfold strip. rewrite lstrip_blank by exact H. reflexivity. Qed.

Lemma strip_app_blank (t b : str) : blank b -> strip (t ++ b) = strip t.
Proof.
  intro H. unfold strip. induction t as [|c t IH]; simpl.
  - rewrite lstrip_blank by exact H. reflexivity.
  - destruct (is_space c); [exact IH|].
    apply (rstrip_app_blank (c :: t) b H).
Qed.

Lemma strip_padded (a t b : str) :
  blank a -> blank b -> strip (a ++ t ++ b) = strip t.
Proof.
  intros Ha Hb. rewrite <- (strip_app_blank t b Hb).
  unfold strip. rewrite lstrip_blank_app by exact Ha. reflexivity.
Qed.

Lemma trimmed_strip (s : str) : trimmed s -> strip s = s.
Proof.
  intros [Hhead Hlast]. unfold strip.
  assert (Hl : lstrip s = s).
  { destruct s as [|c r]; [reflexivity|]. simpl.
    rewrite (Hhead c r eq_refl). reflexivity. }
  rewrite Hl. unfold rstrip.
  destruct (rev s) as [|c r] eqn:E.
  - apply (f_equal (@rev char)) in E. rewrite rev_involutive in E.
    rewrite E. reflexivity.
  - assert (Hs : s = rev r ++ [c]).
    { apply (f_equal (@rev char)) in E. rewrite rev_involutive in E. exact E. }
    simpl lstrip. rewrite (Hlast c (rev r) Hs). simpl. symmetry. exact Hs.
Qed.

Lemma strip_idempotent (s : str) : strip (strip s) = strip s.
Proof. apply trimmed_strip. apply strip_trimmed. Qed.

(** X1. White space before and after a fragment does not change what
    [parse_response] returns. *)
Theorem parse_response_ignores_padding (json_parse : str -> option json)
    (a t b : str) (categories : list str) :
  blank a -> blank b ->
  parse_response json_parse (a ++ t ++ b) categories =
  parse_response json_parse t categories.
Proof.
  intros Ha Hb. unfold parse_response, clean_fragment.
  rewrite (strip_padded a t b Ha Hb). reflexivity.
Qed.

Lemma parse_response_ignores_padding_witness :
  let a := [32; 10]%N in
  let b := [9; 13; 10]%N in
  let t := q "{'g': '1'}" in
  blank a /\ blank b /\
  parse_response JsonRef.parse (a ++ t ++ b) [u "g"; u "h"] =
  parse_response JsonRef.parse t [u "g"; u "h"].
Proof.
  intros a b t.
  assert (Ha : blank a).
  { intros c [<-|[<-|[]]]; reflexivity. }
  assert (Hb : blank b).
  { intros c [<-|[<-|[<-|[]]]]; reflexivity. }
  split; [exact Ha|]. split; [exact Hb|].
  apply (parse_response_ignores_padding JsonRef.parse a t b _ Ha Hb).
Defined.

(** ** The code fence *)

Lemma splitlines_go_line (l rest cur : str) :
  one_line l ->
  splitlines_go cur (l ++ 10%N :: rest) = (rev cur ++ l) :: splitlines_go [] rest.
Proof.
  revert cur. induction l as [|c l IH]; intros cur Hl.
  - rewrite app_nil_r. reflexivity.
  - simpl. rewrite (Hl c) by (left; reflexivity).
    rewrite IH by (intros x Hx; apply Hl; right; exact Hx).
    simpl. rewrite <- app_assoc. reflexivity.
Qed.

Lemma splitlines_go_lines_fence (l : str) (ls : list str) :
  Forall one_line (l :: ls) ->
  splitlines_go [] (join [10%N] (l :: ls) ++ 10%N :: fence) = (l :: ls) ++ [fence].
Proof.
  revert l. induction ls as [|l' ls IH]; intros l H.
  - inversion H as [|? ? Hl _]; subst. simpl join.
    rewrite splitlines_go_line by exact Hl. reflexivity.
  - inversion H as [|? ? Hl Hrest]; subst.
    assert (E : join [10%N] (l :: l' :: ls) ++ 10%N :: fence =
                l ++ 10%N :: (join [10%N] (l' :: ls) ++ 10%N :: fence)).
    { change (join [10%N] (l :: l' :: ls))
        with (l ++ [10%N] ++ join [10%N] (l' :: ls)).
      rewrite <- !app_assoc. reflexivity. }
    rewrite E. rewrite splitlines_go_line by exact Hl.
    rewrite (IH l' Hrest). reflexivity.
Qed.

Lemma startswith_app (p r : str) : startswith (p ++ r) p = true.
Proof.
  induction p as [|c p IH]; simpl; [destruct r; reflexivity|].
  rewrite N.eqb_refl. exact IH.
Qed.

Lemma strip_fenced (x : str) : strip (fence ++ x ++ fence) = fence ++ x ++ fence.
Proof.
  apply trimmed_strip. split.
  - intros c r H. injection H as <- _. reflexivity.
  - intros c r H.
    change (fence ++ x ++ fence)
      with (fence ++ x ++ [96; 96]%N ++ [96%N]) in H.
    rewrite !app_assoc in H. apply app_inj_tail in H.
    destruct H as [_ <-]. reflexivity.
Qed.

(** X2. A fragment wrapped in a code fence (an opening line of three
    backticks and a tag, the lines of the body, a closing line of three
    backticks) is handed to the decoder as its body, trimmed. *)
Theorem clean_fragment_unwraps (tag l : str) (ls : list str) :
  one_line tag -> Forall one_line (l :: ls) ->
  clean_fragment
    (fence ++ (tag ++ 10%N :: join [10%N] (l :: ls) ++ [10%N]) ++ fence) =
  Ret (strip (join [10%N] (l :: ls))).
Proof.
  intros Htag Hlines. unfold clean_fragment.
  rewrite strip_fenced, startswith_app.
  assert (Hsplit :
    splitlines (fence ++ (tag ++ 10%N :: join [10%N] (l :: ls) ++ [10%N]) ++ fence) =
    (fence ++ tag) :: (l :: ls) ++ [fence]).
  { unfold splitlines.
    replace (fence ++ (tag ++ 10%N :: join [10%N] (l :: ls) ++ [10%N]) ++ fence)
      with ((fence ++ tag) ++ 10%N :: (join [10%N] (l :: ls) ++ 10%N :: fence)).
    - rewrite splitlines_go_line.
      + rewrite splitlines_go_lines_fence by exact Hlines. reflexivity.
      + intros c Hc. apply in_app_or in Hc. destruct Hc as [Hc|Hc].
        * destruct Hc as [<-|[<-|[<-|[]]]]; reflexivity.
        * apply Htag. exact Hc.
    - rewrite <- !app_assoc. simpl. rewrite <- !app_assoc. reflexivity. }
  rewrite Hsplit. cbn [first_line bind]. rewrite startswith_app. cbn [tl].
  change ((l :: ls) ++ [fence]) with (l :: (ls ++ [fence])).
  cbv beta iota.
  change (l :: (ls ++ [fence])) with ((l :: ls) ++ [fence]).
  rewrite last_last, removelast_last.
  replace (PyStr.eqb (strip fence) fence) with true by reflexivity.
  reflexivity.
Qed.

Lemma clean_fragment_unwraps_witness :
  let tag := u "json" in
  let l := u "{" in
  let ls := [q "  'g': '1'"; u "}"] in
  one_line tag /\ Forall one_line (l :: ls) /\
  clean_fragment
    (fence ++ (tag ++ 10%N :: join [10%N] (l :: ls) ++ [10%N]) ++ fence) =
  Ret (strip (join [10%N] (l :: ls))).
Proof.
  intros tag l ls.
  assert (Hall : forall s : str,
             forallb (fun c => negb (is_linebreak c)) s = true -> one_line s).
  { intros s Hs c Hc. rewrite forallb_forall in Hs.
    apply negb_true_iff. apply Hs. exact Hc. }
  assert (Htag : one_line tag) by (apply Hall; reflexivity).
  assert (Hlines : Forall one_line (l :: ls)).
  { repeat (constructor; [apply Hall; reflexivity|]). constructor. }
  split; [exact Htag|]. split; [exact Hlines|].
  apply (clean_fragment_unwraps tag l ls Htag Hlines).
Defined.

(** ** Objects that already have every category *)

Lemma fill_dict_complete (d : dict PyVal) (categories : list str) :
  (forall c, In c categories -> get d c <> None) ->
  fill_dict d categories = d.
Proof.
  unfold fill_dict. induction categories as [|c rest IH]; intro H; simpl;
    [reflexivity|].
  assert (E : mem d c = true).
  { apply mem_true_iff. apply get_some_in. apply H. left. reflexivity. }
  rewrite E. apply IH. intros x Hx. apply H. right. exact Hx.
Qed.

(** X3. When the decoded object has a key for every category,
    [parse_response] returns the decoded dict as it is: no entry is added,
    changed or moved, whatever the values are. *)
Theorem parse_response_complete_object (json_parse : str -> option json)
    (response_text : str) (categories : list str) (members : list (str * json)) :
  json_parse (cleaned_text response_text) = Some (JObject members) ->
  (forall c, In c categories -> get (object_dict members) c <> None) ->
  parse_response json_parse response_text categories =
  Ret (PDict (object_dict members)).
Proof.
  intros Hobj Hall.
  rewrite (parse_response_object_eq json_parse response_text categories members Hobj).
  rewrite fill_dict_complete by exact Hall. reflexivity.
Qed.

Lemma parse_response_complete_object_witness :
  let text := q "{'g': 1, 'extra': null, 'h': 'yes'}" in
  let categories := [u "h"; u "g"] in
  let members :=
    [(u "g", JInt 1); (u "extra", JNull); (u "h", JString (u "yes"))] in
  JsonRef.parse (cleaned_text text) = Some (JObject members) /\
  (forall c, In c categories -> get (object_dict members) c <> None) /\
  parse_response JsonRef.parse text categories =
  Ret (PDict [(u "g", PInt 1); (u "extra", PNone); (u "h", PStr (u "yes"))]).
Proof.
  intros text categories members.
  assert (Hall : forall c, In c categories -> get (object_dict members) c <> None).
  { intros c [<-|[<-|[]]]; discriminate. }
  split; [reflexivity|]. split; [exact Hall|].
  apply (parse_response_complete_object JsonRef.parse text categories members
           eq_refl Hall).
Defined.

(** ** A response without any fragment *)

Lemma split_go_chars (sep : str) (s : str) (skip : nat) (cur part : str) (c : char) :
  In part (split_go sep skip cur s) -> In c part -> In c cur \/ In c s.
Proof.
  revert skip cur. induction s as [|x s IH]; intros skip cur Hpart Hc;
    cbn [split_go] in Hpart.
  - destruct Hpart as [<-|[]]. left. apply in_rev. exact Hc.
  - destruct skip as [|k].
    + destruct (startswith (x :: s) sep).
      * destruct Hpart as [<-|Hpart].
        -- left. apply in_rev. exact Hc.
        -- destruct (IH _ _ Hpart Hc) as [[]|H]. right. right. exact H.
      * destruct (IH _ _ Hpart Hc) as [[<-|H]|H].
        -- right. left. reflexivity.
        -- left. exact H.
        -- right. right. exact H.
    + destruct (IH _ _ Hpart Hc) as [H|H]; [left; exact H|right; right; exact H].
Qed.

Lemma blank_parts (sep response_text : str) :
  blank response_text ->
  filter nonempty (map strip (split_go sep 0 [] response_text)) = [].
Proof.
  intro Hb.
  assert (H : Forall blank (split_go sep 0 [] response_text)).
  { apply Forall_forall. intros part Hpart c Hc.
    destruct (split_go_chars sep response_text 0 [] part c Hpart Hc) as [[]|H].
    apply Hb. exact H. }
  induction H as [|part parts Hpart _ IH]; simpl; [reflexivity|].
  rewrite (strip_blank part Hpart). exact IH.
Qed.

(** X4. A response that is empty or white space only has no fragment:
    with a non-empty delimiter the result is one all-absent record per
    input text, as after a failure of the model call. *)
Theorem process_batch_dialogue_blank_response (json_parse : str -> option json)
    (dialogues categories : list str) (delimiter response_text : str) (e : exn) :
  delimiter <> [] -> blank response_text ->
  process_batch_dialogue json_parse dialogues categories delimiter (Ret response_text) =
  Ret (repeat (absent_record categories) (length dialogues)) /\
  process_batch_dialogue json_parse dialogues categories delimiter (Ret response_text) =
  process_batch_dialogue json_parse dialogues categories delimiter (Exc e).
Proof.
  intros Hd Hb.
  assert (H : process_batch_dialogue json_parse dialogues categories delimiter
                (Ret response_text) =
              Ret (repeat (absent_record categories) (length dialogues))).
  { rewrite process_batch_dialogue_success by exact Hd.
    unfold classify_spec, segments_spec. rewrite blank_parts by exact Hb.
    unfold reconcile_spec. simpl map. simpl length.
    destruct (length dialogues) as [|n]; [reflexivity|].
    simpl Nat.ltb. rewrite Nat.sub_0_r. reflexivity. }
  split; [exact H|].
  rewrite H, process_batch_dialogue_failure. reflexivity.
Qed.

Lemma process_batch_dialogue_blank_response_witness :
  let response_text := [32; 10; 9]%N in
  default_delimiter <> [] /\ blank response_text /\
  process_batch_dialogue JsonRef.parse [u "a"; u "b"] [u "g"] default_delimiter
    (Ret response_text) =
  Ret (repeat (absent_record [u "g"]) 2).
Proof.
  intro response_text.
  assert (Hd : default_delimiter <> []) by discriminate.
  assert (Hb : blank response_text).
  { intros c [<-|[<-|[<-|[]]]]; reflexivity. }
  split; [exact Hd|]. split; [exact Hb|].
  exact (proj1 (process_batch_dialogue_blank_response JsonRef.parse
                  [u "a"; u "b"] [u "g"] default_delimiter response_text
                  BackendError Hd Hb)).
Defined.

(** ** Search results *)

Lemma parse_search_loop_dicts (items search_data : list (dict PyVal)) :
  parse_search_loop (map PDict items) search_data =
  Ret (search_data ++ map search_item items).
Proof.
  revert search_data. induction items as [|item items IH]; intro search_data.
  - simpl. rewrite app_nil_r. reflexivity.
  - cbn [map parse_search_loop py_get_default bind]. rewrite IH.
    rewrite <- app_assoc. reflexivity.
Qed.

Lemma get_search_item (item : dict PyVal) (k : str) :
  metadata_key k -> get (search_item item) k = Some (or_empty (get item k)).
Proof. intros [ -> | [ -> | -> ] ]; reflexivity. Qed.

(** X5. For results that are dicts, [parse_search_results] returns one
    entry per result, in order; each entry has exactly the keys title,
    snippet and link, in this order, holding the value of the result for
    the key, or [""] when the result lacks it. *)
Theorem parse_search_results_shape (items : list (dict PyVal)) :
  exists search_data,
    parse_search_results (map PDict items) = Ret search_data /\
    length search_data = length items /\
    forall i item,
      nth_error items i = Some item ->
      exists entry,
        nth_error search_data i = Some entry /\
        keys entry = [k_title; k_snippet; k_link] /\
        forall k, metadata_key k -> get entry k = Some (or_empty (get item k)).
Proof.
  exists (map search_item items). split; [|split].
  - unfold parse_search_results. rewrite parse_search_loop_dicts. reflexivity.
  - apply length_map.
  - intros i item Hi. exists (search_item item). split; [|split].
    + apply map_nth_error. exact Hi.
    + reflexivity.
    + intros k Hk. apply get_search_item. exact Hk.
Qed.

Lemma parse_search_loop_not_dict (results : list PyVal) (search_data : list (dict PyVal))
    (v : PyVal) :
  In v results -> is_dict v = false ->
  parse_search_loop results search_data = Exc AttributeError.
Proof.
  revert search_data. induction results as [|r rest IH]; intros search_data Hin Hv.
  - destruct Hin.
  - destruct (is_dict r) eqn:Er.
    + destruct r; try discriminate Er.
      cbn [parse_search_loop py_get_default bind]. apply IH; [|exact Hv].
      destruct Hin as [<-|Hin]; [discriminate Hv|exact Hin].
    + destruct r; try discriminate Er; reflexivity.
Qed.

(** X6. A result that is no dict (a string, a number, a list, null) makes
    [parse_search_results] raise [AttributeError], wherever it stands in
    the list. *)
Theorem parse_search_results_not_dict (results : list PyVal) (v : PyVal) :
  In v results -> is_dict v = false ->
  parse_search_results results = Exc AttributeError.
Proof. apply parse_search_loop_not_dict. Qed.

Lemma parse_search_results_not_dict_witness :
  let results := [PDict [(k_title, PStr (u "t"))]; PStr (u "oops"); PDict []] in
  In (PStr (u "oops")) results /\ is_dict (PStr (u "oops")) = false /\
  parse_search_results results = Exc AttributeError.
Proof.
  intro results.
  assert (Hin : In (PStr (u "oops")) results) by (right; left; reflexivity).
  split; [exact Hin|]. split; [reflexivity|].
  apply (parse_search_results_not_dict results (PStr (u "oops")) Hin eq_refl).
Defined.

Lemma snippets_search_items (items : list (dict PyVal)) :
  snippets (map search_item items) =
  Ret (map (fun item => or_empty (get item k_snippet)) items).
Proof.
  induction items as [|item items IH]; [reflexivity|].
  cbn [map snippets]. rewrite IH.
  unfold getitem. rewrite get_search_item by (right; left; reflexivity).
  reflexivity.
Qed.

(** X7. Taking the snippet of every entry [parse_search_results] built
    cannot raise [KeyError]: there is one text per search result, the
    snippet of the result or [""] when it has none. *)
Theorem snippets_of_search_results (items : list (dict PyVal)) :
  exists search_data dialogues,
    parse_search_results (map PDict items) = Ret search_data /\
    snippets search_data = Ret dialogues /\
    length dialogues = length items /\
    dialogues = map (fun item => or_empty (get item k_snippet)) items.
Proof.
  exists (map search_item items),
         (map (fun item => or_empty (get item k_snippet)) items).
  split; [|split; [|split]].
  - unfold parse_search_results. rewrite parse_search_loop_dicts. reflexivity.
  - apply snippets_search_items.
  - apply length_map.
  - reflexivity.
Qed.

(** An entry without the key does raise. *)
Example snippets_missing_key :
  snippets [[(k_title, PStr (u "t"))]] = Exc KeyError.
Proof. reflexivity. Qed.

(** ** The merge of the main flow *)

Lemma get_update_other (d e : dict PyVal) (k : str) :
  ~ In k (keys e) -> get (update d e) k = get d k.
Proof.
  unfold update. revert d. induction e as [|[k0 v0] e IH]; intros d Hk; simpl;
    [reflexivity|].
  rewrite IH by (intro H; apply Hk; right; exact H).
  apply get_set_other. intros ->. apply Hk. left. reflexivity.
Qed.

Lemma get_update_key (d e : dict PyVal) (k : str) (v : PyVal) :
  NoDup (keys e) -> get e k = Some v -> get (update d e) k = Some v.
Proof.
  unfold update. revert d. induction e as [|[k0 v0] e IH]; intros d Hnd Hk;
    [discriminate Hk|].
  simpl in Hnd. inversion Hnd as [|? ? Hk0 Hnd']; subst.
  simpl in Hk. simpl fold_left. destruct (PyStr.eqb k k0) eqn:E.
  - apply eqb_eq in E. subst k0. injection Hk as <-.
    change (get (update (set d k v0) e) k = Some v0).
    rewrite get_update_other by exact Hk0. apply get_set_same.
  - apply IH; assumption.
Qed.

Lemma merge_loop_dicts (records search_data : list (dict PyVal)) (i : nat) :
  merge_loop i (map PDict records) search_data =
  Ret (map PDict (overlay i records search_data)).
Proof.
  revert i. induction records as [|record records IH]; intro i; [reflexivity|].
  cbn [map merge_loop overlay]. rewrite IH.
  destruct (Nat.ltb i (length search_data)) eqn:E.
  - apply Nat.ltb_lt in E. unfold getindex.
    destruct (nth_error search_data i) as [item|] eqn:En.
    + reflexivity.
    + apply nth_error_None in En. lia.
  - apply Nat.ltb_ge in E. apply nth_error_None in E. rewrite E. reflexivity.
Qed.

Lemma overlay_length (records search_data : list (dict PyVal)) (i : nat) :
  length (overlay i records search_data) = length records.
Proof.
  revert i. induction records as [|record records IH]; intro i; simpl;
    [reflexivity|]. rewrite IH. reflexivity.
Qed.

Lemma overlay_nth (records search_data : list (dict PyVal)) (i j : nat)
    (record : dict PyVal) :
  nth_error records j = Some record ->
  nth_error (overlay i records search_data) j =
  Some (match nth_error search_data (i + j) with
        | Some item => update record item
        | None => record
        end).
Proof.
  revert i j. induction records as [|r records IH]; intros i j Hj.
  - destruct j; discriminate Hj.
  - destruct j as [|j]; simpl in Hj.
    + injection Hj as ->. simpl. rewrite Nat.add_0_r. reflexivity.
    + simpl. rewrite (IH (S i) j Hj). rewrite Nat.add_succ_r. reflexivity.
Qed.

Lemma metadata_key_iff (item : dict PyVal) (k : str) :
  In k (keys (search_item item)) <-> metadata_key k.
Proof.
  unfold metadata_key. simpl. split.
  - intros [H|[H|[H|[]]]]; auto.
  - intros [H|[H|H]]; auto.
Qed.

Lemma NoDup_keys_search_item (item : dict PyVal) : NoDup (keys (search_item item)).
Proof.
  simpl. repeat constructor; simpl; intuition discriminate.
Qed.

(** X8. The merge gives each dict record the title, snippet and link of
    the search result at its position, these winning over an entry the
    record had under the same key; every other entry of the record is
    kept, a record beyond the last search result is left as it is, and
    the number of records does not change. *)
Theorem merge_results_overlays (records items : list (dict PyVal)) :
  exists search_data merged,
    parse_search_results (map PDict items) = Ret search_data /\
    merge_results (map PDict records) search_data = Ret (map PDict merged) /\
    length merged = length records /\
    (forall j record item,
        nth_error records j = Some record ->
        nth_error items j = Some item ->
        exists m,
          nth_error merged j = Some m /\
          (forall k, metadata_key k -> get m k = Some (or_empty (get item k))) /\
          (forall k, ~ metadata_key k -> get m k = get record k)) /\
    (forall j record,
        nth_error records j = Some record ->
        nth_error items j = None ->
        nth_error merged j = Some record).
Proof.
  exists (map search_item items), (overlay 0 records (map search_item items)).
  split; [|split; [|split; [|split]]].
  - unfold parse_search_results. rewrite parse_search_loop_dicts. reflexivity.
  - apply merge_loop_dicts.
  - apply overlay_length.
  - intros j record item Hr Hi.
    exists (update record (search_item item)). split; [|split].
    + rewrite (overlay_nth records _ 0 j record Hr). simpl.
      rewrite (map_nth_error search_item j items Hi). reflexivity.
    + intros k Hk. apply get_update_key.
      * apply NoDup_keys_search_item.
      * apply get_search_item. exact Hk.
    + intros k Hk. apply get_update_other.
      rewrite metadata_key_iff. exact Hk.
  - intros j record Hr Hi.
    rewrite (overlay_nth records _ 0 j record Hr). simpl.
    rewrite nth_error_map, Hi. reflexivity.
Qed.

(** A category named like a field of the search result loses its flag. *)
Example merge_results_overwrites_flag :
  merge_results [PDict [(u "title", PStr (u "1")); (u "g", PStr (u "1"))]]
                [search_item [(k_title, PStr (u "About verbs"))]] =
  Ret [PDict [(u "title", PStr (u "About verbs")); (u "g", PStr (u "1"));
              (u "snippet", PStr []); (u "link", PStr [])]].
Proof. reflexivity. Qed.

(** A record that is no dict has no [update]. *)
Example merge_results_on_array :
  merge_results [PList [PStr (u "a")]] [search_item []] = Exc AttributeError.
Proof. reflexivity. Qed.

(** ** Counting and the other steps of a run *)

Lemma count_record_agree (m r : dict PyVal) (categories : list str) (counts : dict Z) :
  (forall c, In c categories -> get m c = get r c) ->
  count_record (PDict m) categories counts = count_record (PDict r) categories counts.
Proof.
  revert counts. induction categories as [|c rest IH]; intros counts H;
    [reflexivity|].
  cbn [count_record py_get bind]. rewrite (H c) by (left; reflexivity).
  destruct (is_one (get r c)).
  - destruct (getitem counts c); [|reflexivity].
    cbn [bind]. apply IH. intros x Hx. apply H. right. exact Hx.
  - apply IH. intros x Hx. apply H. right. exact Hx.
Qed.

Lemma count_results_agree (ms rs : list (dict PyVal)) (categories : list str)
    (counts : dict Z) :
  Forall2 (fun m r => forall c, In c categories -> get m c = get r c) ms rs ->
  count_results (map PDict ms) categories counts =
  count_results (map PDict rs) categories counts.
Proof.
  intro H. revert counts. induction H as [|m r ms rs Hmr _ IH]; intro counts;
    [reflexivity|].
  cbn [map count_results]. rewrite (count_record_agree m r categories counts Hmr).
  destruct (count_record (PDict r) categories counts); [|reflexivity].
  cbn [bind]. apply IH.
Qed.

Lemma overlay_agree (records items : list (dict PyVal)) (categories : list str)
    (i : nat) :
  (forall c, In c categories -> ~ metadata_key c) ->
  Forall2 (fun m r => forall c, In c categories -> get m c = get r c)
          (overlay i records (map search_item items)) records.
Proof.
  intro H. revert i. induction records as [|record records IH]; intro i;
    simpl; constructor; [|apply IH].
  intros c Hc. rewrite nth_error_map.
  destruct (nth_error items i) as [item|]; cbn [option_map]; [|reflexivity].
  apply get_update_other. rewrite metadata_key_iff. apply H. exact Hc.
Qed.

(** X9. When no category is named title, snippet or link, the counts do
    not depend on whether they are taken before the merge, as the main
    flow does, or after it. *)
Theorem counts_unchanged_by_merge (records items : list (dict PyVal))
    (categories : list str) :
  (forall c, In c categories -> ~ metadata_key c) ->
  exists search_data merged,
    parse_search_results (map PDict items) = Ret search_data /\
    merge_results (map PDict records) search_data = Ret merged /\
    calculate_category_counts merged categories =
    calculate_category_counts (map PDict records) categories.
Proof.
  intro H.
  exists (map search_item items),
         (map PDict (overlay 0 records (map search_item items))).
  split; [|split].
  - unfold parse_search_results. rewrite parse_search_loop_dicts. reflexivity.
  - apply merge_loop_dicts.
  - unfold calculate_category_counts. apply count_results_agree.
    apply overlay_agree. exact H.
Qed.

Lemma counts_unchanged_by_merge_witness :
  let records := [ [(u "g", PStr (u "1")); (u "h", PStr [])] ] in
  let items := [ [(k_title, PStr (u "1")); (k_link, PStr (u "1"))] ] in
  let categories := [u "g"; u "h"] in
  (forall c, In c categories -> ~ metadata_key c) /\
  exists search_data merged,
    parse_search_results (map PDict items) = Ret search_data /\
    merge_results (map PDict records) search_data = Ret merged /\
    calculate_category_counts merged categories =
    calculate_category_counts (map PDict records) categories.
Proof.
  intros records items categories.
  assert (H : forall c, In c categories -> ~ metadata_key c).
  { intros c [<-|[<-|[]]] [E|[E|E]]; discriminate E. }
  split; [exact H|].
  apply (counts_unchanged_by_merge records items categories H).
Defined.

(** With a category named title the two counts differ. *)
Example counts_changed_by_merge :
  calculate_category_counts [PDict [(u "title", PStr (u "1"))]] [u "title"] =
  Ret [(u "title", 1%Z)] /\
  (merged <- merge_results [PDict [(u "title", PStr (u "1"))]]
                           [search_item [(k_title, PStr (u "About verbs"))]] ;;
   calculate_category_counts merged [u "title"]) =
  Ret [(u "title", 0%Z)].
Proof. split; reflexivity. Qed.

Lemma flagged_count_app (records1 records2 : list (dict PyVal)) (k : str) :
  flagged_count (records1 ++ records2) k =
  (flagged_count records1 k + flagged_count records2 k)%Z.
Proof.
  unfold flagged_count. rewrite filter_app, length_app. lia.
Qed.

(** X10. Counting is additive: for each category, the count over two
    lists of records put together is the sum of the counts over each. *)
Theorem calculate_category_counts_app (records1 records2 : list (dict PyVal))
    (categories : list str) :
  exists counts1 counts2 counts,
    calculate_category_counts (map PDict records1) categories = Ret counts1 /\
    calculate_category_counts (map PDict records2) categories = Ret counts2 /\
    calculate_category_counts (map PDict (records1 ++ records2)) categories =
    Ret counts /\
    keys counts = keys counts1 /\ keys counts = keys counts2 /\
    forall c, In c categories ->
      exists v1 v2,
        get counts1 c = Some v1 /\ get counts2 c = Some v2 /\
        get counts c = Some (v1 + v2)%Z.
Proof.
  unfold calculate_category_counts.
  assert (Hpre : forall c, In c categories ->
                           get (from_keys categories 0%Z) c <> None).
  { intros c Hc. rewrite get_from_keys.
    destruct (in_dec str_eq_dec c categories); [discriminate|contradiction]. }
  destruct (count_results_dicts records1 categories _ Hpre) as [c1 [H1 [K1 G1]]].
  destruct (count_results_dicts records2 categories _ Hpre) as [c2 [H2 [K2 G2]]].
  destruct (count_results_dicts (records1 ++ records2) categories _ Hpre)
    as [c12 [H12 [K12 G12]]].
  exists c1, c2, c12.
  split; [exact H1|]. split; [exact H2|]. split; [exact H12|].
  split; [congruence|]. split; [congruence|].
  intros c Hc. rewrite G1, G2, G12, get_from_keys.
  destruct (in_dec str_eq_dec c categories); [|contradiction].
  cbn [option_map]. eexists. eexists.
  split; [reflexivity|]. split; [reflexivity|].
  f_equal. rewrite flagged_count_app. lia.
Qed.

Lemma count_results_no_category (results : list PyVal) (counts : dict Z) :
  count_results results [] counts = Ret counts.
Proof.
  induction results as [|r results IH]; [reflexivity|]. simpl. exact IH.
Qed.

(** With an empty category list nothing is looked up: the counts are the
    empty dict for every list of records, including records that are no
    dicts. *)
Lemma calculate_category_counts_no_category (results : list PyVal) :
  calculate_category_counts results [] = Ret [].
Proof. apply count_results_no_category. Qed.

Lemma count_results_not_dict (results : list PyVal) (categories : list str)
    (counts : dict Z) (v : PyVal) :
  categories <> [] ->
  (forall c, In c categories -> get counts c <> None) ->
  In v results -> is_dict v = false ->
  count_results results categories counts = Exc AttributeError.
Proof.
  intros Hne. revert counts.
  induction results as [|r results IH]; intros counts Hpre Hin Hv;
    [destruct Hin|].
  destruct (is_dict r) eqn:Er.
  - destruct r; try discriminate Er.
    destruct (count_record_dict d categories counts Hpre) as [counts' [H1 [H2 _]]].
    cbn [count_results]. rewrite H1. cbn [bind].
    apply IH.
    + intros c Hc. apply get_some_in. rewrite H2. apply get_some_in.
      apply Hpre. exact Hc.
    + destruct Hin as [<-|Hin]; [discriminate Hv|exact Hin].
    + exact Hv.
  - destruct categories as [|c cs]; [contradiction|].
    destruct r; try discriminate Er; reflexivity.
Qed.

Lemma count_from_zero_not_dict (results : list PyVal) (categories : list str)
    (v : PyVal) :
  categories <> [] -> In v results -> is_dict v = false ->
  calculate_category_counts results categories = Exc AttributeError.
Proof.
  intros Hne Hin Hv. unfold calculate_category_counts.
  apply (count_results_not_dict results categories _ v Hne); try assumption.
  intros c Hc. rewrite get_from_keys.
  destruct (in_dec str_eq_dec c categories); [discriminate|contradiction].
Qed.

(** X12. With at least one category, a record that is no dict makes
    [calculate_category_counts] raise [AttributeError], wherever it
    stands in the list. *)
Theorem calculate_category_counts_not_dict (results : list PyVal)
    (categories : list str) (v : PyVal) :
  categories <> [] -> In v results -> is_dict v = false ->
  calculate_category_counts results categories = Exc AttributeError.
Proof. apply count_from_zero_not_dict. Qed.

Lemma calculate_category_counts_not_dict_witness :
  let results := [PDict [(u "g", PStr (u "1"))]; PList [PStr (u "g")]] in
  [u "g"] <> [] /\ In (PList [PStr (u "g")]) results /\
  is_dict (PList [PStr (u "g")]) = false /\
  calculate_category_counts results [u "g"] = Exc AttributeError.
Proof.
  intro results.
  assert (Hne : [u "g"] <> []) by discriminate.
  assert (Hin : In (PList [PStr (u "g")]) results) by (right; left; reflexivity).
  split; [exact Hne|]. split; [exact Hin|]. split; [reflexivity|].
  apply (calculate_category_counts_not_dict results [u "g"] _ Hne Hin eq_refl).
Defined.

Lemma absent_not_flagged (categories : list str) (k : str) :
  flagged (from_keys categories absent_flag) k = false.
Proof.
  unfold flagged. rewrite get_from_keys.
  destruct (in_dec str_eq_dec k categories); reflexivity.
Qed.

Lemma count_record_unflagged (record : dict PyVal) (categories : list str)
    (counts : dict Z) :
  (forall c, In c categories -> flagged record c = false) ->
  count_record (PDict record) categories counts = Ret counts.
Proof.
  induction categories as [|c rest IH]; intro H; [reflexivity|].
  cbn [count_record py_get bind]. fold (flagged record c).
  rewrite (H c) by (left; reflexivity).
  apply IH. intros x Hx. apply H. right. exact Hx.
Qed.

Lemma count_results_absent (categories all : list str) (n : nat) (counts : dict Z) :
  count_results (repeat (absent_record all) n) categories counts = Ret counts.
Proof.
  induction n as [|n IH]; [reflexivity|].
  cbn [repeat count_results]. unfold absent_record at 1.
  rewrite count_record_unflagged by (intros c _; apply absent_not_flagged).
  exact IH.
Qed.

Lemma count_results_app (results1 results2 : list PyVal) (categories : list str)
    (counts : dict Z) :
  count_results (results1 ++ results2) categories counts =
  (counts' <- count_results results1 categories counts ;;
   count_results results2 categories counts').
Proof.
  revert counts. induction results1 as [|r results1 IH]; intro counts;
    [reflexivity|].
  cbn [app count_results].
  destruct (count_record r categories counts); [|reflexivity].
  cbn [bind]. apply IH.
Qed.

(** X13. The all-absent records appended by the reconciliation do not
    change the counts, whatever the records before them are. *)
Theorem calculate_category_counts_padding (results : list PyVal)
    (categories : list str) (n : nat) :
  calculate_category_counts (results ++ repeat (absent_record categories) n) categories =
  calculate_category_counts results categories.
Proof.
  unfold calculate_category_counts. rewrite count_results_app.
  destruct (count_results results categories (from_keys categories 0%Z));
    [|reflexivity].
  cbn [bind]. apply count_results_absent.
Qed.

(** X14. When the model call fails, the counts taken from the result of
    [process_batch_dialogue] are 0 for every category. *)
Theorem counts_after_backend_failure (json_parse : str -> option json)
    (dialogues categories : list str) (delimiter : str) (e : exn) :
  exists results,
    process_batch_dialogue json_parse dialogues categories delimiter (Exc e) =
    Ret results /\
    calculate_category_counts results categories = Ret (from_keys categories 0%Z) /\
    forall c, In c categories -> get (from_keys categories 0%Z) c = Some 0%Z.
Proof.
  rewrite process_batch_dialogue_failure. eexists.
  split; [reflexivity|]. split.
  - unfold calculate_category_counts. apply count_results_absent.
  - intros c Hc. rewrite get_from_keys.
    destruct (in_dec str_eq_dec c categories); [reflexivity|contradiction].
Qed.

(** ** The text area of the category list *)

Lemma startswith_nil (s : str) : startswith s [] = true.
Proof. destruct s; reflexivity. Qed.

Lemma startswith_single (x c : char) (s : str) :
  startswith (c :: s) [x] = N.eqb x c.
Proof.
  cbn [startswith]. rewrite startswith_nil. apply andb_true_r.
Qed.

Lemma split_go_single_line (x : char) (l rest cur : str) :
  ~ In x l ->
  split_go [x] 0 cur (l ++ x :: rest) = (rev cur ++ l) :: split_go [x] 0 [] rest.
Proof.
  revert cur. induction l as [|c l IH]; intros cur Hx.
  - cbn [app split_go]. rewrite startswith_single, N.eqb_refl.
    rewrite app_nil_r. reflexivity.
  - cbn [app split_go]. rewrite startswith_single.
    assert (E : N.eqb x c = false).
    { apply N.eqb_neq. intros ->. apply Hx. left. reflexivity. }
    rewrite E. rewrite IH by (intro H; apply Hx; right; exact H).
    simpl rev. rewrite <- app_assoc. reflexivity.
Qed.

Lemma split_go_single_end (x : char) (l cur : str) :
  ~ In x l -> split_go [x] 0 cur l = [rev cur ++ l].
Proof.
  revert cur. induction l as [|c l IH]; intros cur Hx.
  - cbn [split_go]. rewrite app_nil_r. reflexivity.
  - cbn [split_go]. rewrite startswith_single.
    assert (E : N.eqb x c = false).
    { apply N.eqb_neq. intros ->. apply Hx. left. reflexivity. }
    rewrite E. rewrite IH by (intro H; apply Hx; right; exact H).
    simpl rev. rewrite <- app_assoc. reflexivity.
Qed.

(** Splitting on a one-character separator undoes joining with it. *)
Lemma split_join_single (x : char) (l : str) (ls : list str) :
  Forall (fun p => ~ In x p) (l :: ls) ->
  split_go [x] 0 [] (join [x] (l :: ls)) = l :: ls.
Proof.
  revert l. induction ls as [|l' ls IH]; intros l H.
  - inversion H as [|? ? Hl _]; subst. cbn [join].
    rewrite split_go_single_end by exact Hl. reflexivity.
  - inversion H as [|? ? Hl Hrest]; subst.
    change (join [x] (l :: l' :: ls)) with (l ++ x :: join [x] (l' :: ls)).
    rewrite split_go_single_line by exact Hl.
    rewrite (IH l' Hrest). reflexivity.
Qed.

Lemma split_go_single_free (x : char) (s cur part : str) :
  ~ In x cur -> In part (split_go [x] 0 cur s) -> ~ In x part.
Proof.
  revert cur. induction s as [|c s IH]; intros cur Hcur Hpart;
    cbn [split_go] in Hpart.
  - destruct Hpart as [<-|[]]. intro H. apply Hcur. apply in_rev. exact H.
  - rewrite startswith_single in Hpart. destruct (N.eqb x c) eqn:E.
    + destruct Hpart as [<-|Hpart].
      * intro H. apply Hcur. apply in_rev. exact H.
      * apply (IH []); [intros []|exact Hpart].
    + apply (IH (c :: cur)); [|exact Hpart].
      apply N.eqb_neq in E. intros [H|H]; [congruence|contradiction].
Qed.

Lemma lstrip_incl (s : str) (c : char) : In c (lstrip s) -> In c s.
Proof.
  induction s as [|x s IH]; simpl; [intros []|].
  destruct (is_space x); [intro H; right; apply IH; exact H|].
  intro H. exact H.
Qed.

Lemma strip_incl (s : str) (c : char) : In c (strip s) -> In c s.
Proof.
  unfold strip, rstrip. intro H.
  apply lstrip_incl. apply (proj2 (in_rev _ _)).
  apply lstrip_incl. apply (proj2 (in_rev _ _)). exact H.
Qed.

Lemma parse_categories_no_newline (categories_text : str) :
  Forall (fun c => ~ In 10%N c) (parse_categories categories_text).
Proof.
  unfold parse_categories. apply Forall_forall. intros c Hc.
  apply in_map_iff in Hc. destruct Hc as [part [<- Hpart]].
  apply filter_In in Hpart. destruct Hpart as [Hpart _].
  intro H. apply strip_incl in H.
  revert H. apply (split_go_single_free 10%N categories_text [] part);
    [intros []|exact Hpart].
Qed.

Lemma default_categories_no_newline :
  Forall (fun c => ~ In 10%N c) default_categories.
Proof.
  assert (H : forall s : str,
             existsb (N.eqb 10) s = false -> ~ In 10%N s).
  { intros s Hs Hin.
    assert (E : existsb (N.eqb 10) s = true).
    { apply existsb_exists. exists 10%N. split; [exact Hin|reflexivity]. }
    congruence. }
  unfold default_categories.
  repeat (constructor; [apply H; reflexivity|]). constructor.
Qed.

Lemma reachable_no_newline (cs : list str) :
  reachable cs -> Forall (fun c => ~ In 10%N c) cs.
Proof.
  induction 1 as [|categories_text cs Hreach IH].
  - apply default_categories_no_newline.
  - destruct (update_categories_cases categories_text cs) as [[_ E]|[_ E]];
      rewrite E; simpl; [exact IH|apply parse_categories_no_newline].
Qed.

Lemma keep_well_formed (cs : list str) :
  Forall well_formed_entry cs ->
  map strip (filter (fun cat => nonempty (strip cat)) cs) = cs.
Proof.
  induction 1 as [|c cs [Hne Htrim] _ IH]; [reflexivity|].
  cbn [filter]. rewrite (trimmed_strip c Htrim).
  destruct c as [|x c]; [contradiction|].
  cbn [nonempty map]. rewrite (trimmed_strip (x :: c) Htrim), IH. reflexivity.
Qed.

(** What the text area shows for a list, parsed back, is the list. *)
Lemma parse_categories_join (cs : list str) :
  Forall well_formed_entry cs -> Forall (fun c => ~ In 10%N c) cs ->
  parse_categories (join [10%N] cs) = cs.
Proof.
  intros Hwf Hnl. destruct cs as [|l ls]; [reflexivity|].
  unfold parse_categories. rewrite split_join_single by exact Hnl.
  apply keep_well_formed. exact Hwf.
Qed.

(** X15. The text area is filled with the entries of the session's list
    joined by line feeds; pressing the update button on that text,
    unedited, installs the very same list and reports its length, for the
    default list and every list a session can reach. *)
Theorem update_categories_prefilled (cs : list str) :
  reachable cs ->
  update_categories (join [10%N] cs) cs = (cs, Success (length cs)).
Proof.
  intro Hreach.
  destruct (reachable_invariant cs Hreach) as [Hne Hwf].
  pose proof (reachable_no_newline cs Hreach) as Hnl.
  unfold update_categories. rewrite (parse_categories_join cs Hwf Hnl).
  destruct cs as [|c cs]; [contradiction|reflexivity].
Qed.

Lemma update_categories_prefilled_witness :
  reachable default_categories /\
  update_categories (join [10%N] default_categories) default_categories =
  (default_categories, Success 7).
Proof.
  split; [apply reach_init|].
  apply (update_categories_prefilled default_categories reach_init).
Defined.

(** X16. Parsing the text area is a projection: the entries it yields,
    joined by line feeds and parsed again, are the same entries, for
    every text. *)
Theorem parse_categories_idempotent (categories_text : str) :
  parse_categories (join [10%N] (parse_categories categories_text)) =
  parse_categories categories_text.
Proof.
  apply parse_categories_join.
  - apply parse_categories_entries.
  - apply parse_categories_no_newline.
Qed.

(** ** When counting returns *)

Lemma all_dicts (results : list PyVal) :
  forallb is_dict results = true -> exists records, results = map PDict records.
Proof.
  induction results as [|r results IH]; intro H.
  - exists []. reflexivity.
  - simpl in H. apply andb_true_iff in H. destruct H as [Hr H].
    destruct (IH H) as [records ->].
    destruct r; try discriminate Hr. exists (d :: records). reflexivity.
Qed.

Lemma some_not_dict (results : list PyVal) :
  forallb is_dict results = false ->
  exists v, In v results /\ is_dict v = false.
Proof.
  induction results as [|r results IH]; intro H; [discriminate H|].
  simpl in H. destruct (is_dict r) eqn:Er.
  - destruct (IH H) as [v [Hin Hv]]. exists v. split; [right; exact Hin|exact Hv].
  - exists r. split; [left; reflexivity|exact Er].
Qed.

(** X11. [calculate_category_counts] returns exactly when the category
    list is empty or every record is a dict; otherwise it raises. *)
Theorem calculate_category_counts_returns_iff (results : list PyVal)
    (categories : list str) :
  (exists counts, calculate_category_counts results categories = Ret counts) <->
  (categories = [] \/ forallb is_dict results = true).
Proof.
  split.
  - intros [counts H].
    destruct categories as [|c cs]; [left; reflexivity|]. right.
    destruct (forallb is_dict results) eqn:E; [reflexivity|].
    destruct (some_not_dict results E) as [v [Hin Hv]].
    rewrite (count_from_zero_not_dict results (c :: cs) v) in H;
      [discriminate H|discriminate|exact Hin|exact Hv].
  - intros [->|H].
    + exists []. apply calculate_category_counts_no_category.
    + destruct (all_dicts results H) as [records ->].
      destruct (calculate_category_counts_general records categories)
        as [counts [Hc _]].
      exists counts. exact Hc.
Qed.

(** ** The chart and the table *)

Lemma shows_glyph_flagged (record : dict PyVal) (category : str) :
  shows_glyph record category = flagged record category.
Proof.
  unfold shows_glyph, display, flagged.
  destruct (is_one (get record category)); reflexivity.
Qed.

Lemma flagged_count_agree (ms rs : list (dict PyVal)) (c : str) :
  Forall2 (fun m r => get m c = get r c) ms rs ->
  length (filter (fun m => shows_glyph m c) ms) =
  length (filter (fun r => flagged r c) rs).
Proof.
  induction 1 as [|m r ms rs Hmr _ IH]; [reflexivity|].
  cbn [filter]. rewrite shows_glyph_flagged.
  assert (E : flagged m c = flagged r c) by (unfold flagged; rewrite Hmr; reflexivity).
  rewrite E. destruct (flagged r c); cbn [length]; rewrite IH; reflexivity.
Qed.

Lemma overlay_agree_one (records items : list (dict PyVal)) (c : str) (i : nat) :
  ~ metadata_key c ->
  Forall2 (fun m r => get m c = get r c)
          (overlay i records (map search_item items)) records.
Proof.
  intro H. revert i. induction records as [|record records IH]; intro i;
    simpl; constructor; [|apply IH].
  rewrite nth_error_map.
  destruct (nth_error items i) as [item|]; cbn [option_map]; [|reflexivity].
  apply get_update_other. rewrite metadata_key_iff. exact H.
Qed.

(** X17. For distinct categories none of which is named title, snippet
    or link, the count the chart shows for a category is the number of
    merged records for which the table of the second tab shows the check
    mark under that category. *)
Theorem counts_match_table (records items : list (dict PyVal))
    (categories : list str) :
  NoDup categories ->
  (forall c, In c categories -> ~ metadata_key c) ->
  exists search_data merged counts,
    parse_search_results (map PDict items) = Ret search_data /\
    merge_results (map PDict records) search_data = Ret (map PDict merged) /\
    calculate_category_counts (map PDict records) categories = Ret counts /\
    forall c, In c categories ->
      get counts c =
      Some (Z.of_nat (length (filter (fun m => shows_glyph m c) merged))).
Proof.
  intros Hnd Hmeta.
  destruct (calculate_category_counts_general records categories)
    as [counts [Hc [_ Hget]]].
  exists (map search_item items), (overlay 0 records (map search_item items)),
         counts.
  split; [|split; [|split]].
  - unfold parse_search_results. rewrite parse_search_loop_dicts. reflexivity.
  - apply merge_loop_dicts.
  - exact Hc.
  - intros c Hin. rewrite Hget.
    destruct (in_dec str_eq_dec c categories); [|contradiction].
    rewrite (listed_NoDup categories c Hnd Hin), Z.mul_1_l.
    unfold flagged_count.
    rewrite (flagged_count_agree _ records c
               (overlay_agree_one records items c 0 (Hmeta c Hin))).
    reflexivity.
Qed.

Lemma counts_match_table_witness :
  let records := [ [(u "g", PStr (u "1")); (u "h", PStr [])];
                   [(u "g", PStr (u "1")); (u "h", PStr (u "1"))] ] in
  let items := [ [(k_title, PStr (u "first")); (k_snippet, PStr (u "1"))] ] in
  let categories := [u "g"; u "h"] in
  NoDup categories /\
  (forall c, In c categories -> ~ metadata_key c) /\
  exists search_data merged counts,
    parse_search_results (map PDict items) = Ret search_data /\
    merge_results (map PDict records) search_data = Ret (map PDict merged) /\
    calculate_category_counts (map PDict records) categories = Ret counts /\
    forall c, In c categories ->
      get counts c =
      Some (Z.of_nat (length (filter (fun m => shows_glyph m c) merged))).
Proof.
  intros records items categories.
  assert (Hnd : NoDup categories).
  { repeat constructor; simpl; intuition discriminate. }
  assert (Hmeta : forall c, In c categories -> ~ metadata_key c).
  { intros c [<-|[<-|[]]] [E|[E|E]]; discriminate E. }
  split; [exact Hnd|]. split; [exact Hmeta|].
  apply (counts_match_table records items categories Hnd Hmeta).
Defined.

(** ** A closing fence without an opening one *)

(** C4, at a failing input. The fragment is a JSON object followed by a
    closing fence line, with no opening fence. Cleaned as the
    specification words it, the text is the object, whose value for the
    category is ["1"]. The code looks for the closing fence only when the
    text opens with one, hands the text with the fence to the decoder,
    which rejects it, and returns the all-absent record: the decoded
    value is lost. *)
Theorem parse_response_closing_fence_only :
  let text := q "{'a':'1'}" ++ [10%N] ++ fence in
  clean_fragment_as_worded text = q "{'a':'1'}" /\
  JsonRef.parse (clean_fragment_as_worded text) =
    Some (JObject [(u "a", JString (u "1"))]) /\
  clean_fragment text = Ret text /\
  JsonRef.parse text = None /\
  parse_response JsonRef.parse text [u "a"] = Ret (PDict [(u "a", PStr [])]).
Proof. repeat split; reflexivity. Qed.

(** The layout the prompt shows to the model (lines 143 to 147) has one
    fence around all the fragments: the first fragment then opens with
    the fence and the last one only closes it. The first record is
    decoded, the flag of the last one is lost. *)
Example prompt_layout_loses_last_record :
  process_batch_dialogue JsonRef.parse [u "x"; u "y"] [u "g"] default_delimiter
    (Ret (fence ++ u "json" ++ [10%N] ++ q "{'g':'1'}" ++ [10%N]
          ++ default_delimiter ++ [10%N] ++ q "{'g':'1'}" ++ [10%N] ++ fence)) =
  Ret [PDict [(u "g", PStr (u "1"))]; PDict [(u "g", PStr [])]].
Proof. reflexivity. Qed.

(** With both fences around one fragment the object is decoded. *)
Example both_fences_decoded :
  parse_response JsonRef.parse
    (fence ++ [10%N] ++ q "{'a':'1'}" ++ [10%N] ++ fence) [u "a"] =
  Ret (PDict [(u "a", PStr (u "1"))]).
Proof. reflexivity. Qed.

(** ** The batch classifier, segment by segment *)

Lemma lstrip_decompose (s : str) : exists a, blank a /\ s = a ++ lstrip s.
Proof.
  induction s as [|c s [a [Ha Hs]]]; simpl.
  - exists []. split; [intros x []|reflexivity].
  - destruct (is_space c) eqn:E.
    + exists (c :: a). split.
      * intros x [<-|Hx]; [exact E|apply Ha; exact Hx].
      * simpl. f_equal. exact Hs.
    + exists []. split; [intros x []|reflexivity].
Qed.

Lemma rstrip_decompose (s : str) : exists b, blank b /\ s = rstrip s ++ b.
Proof.
  unfold rstrip. destruct (lstrip_decompose (rev s)) as [a [Ha Hs]].
  exists (rev a). split; [apply blank_rev; exact Ha|].
  rewrite <- rev_app_distr, <- Hs, rev_involutive. reflexivity.
Qed.

Lemma strip_decompose (s : str) :
  exists a b, blank a /\ blank b /\ s = a ++ strip s ++ b.
Proof.
  destruct (lstrip_decompose s) as [a [Ha Hs]].
  destruct (rstrip_decompose (lstrip s)) as [b [Hb Hl]].
  exists a, b. split; [exact Ha|]. split; [exact Hb|].
  unfold strip. rewrite <- Hl. exact Hs.
Qed.

Lemma is_blank_iff (s : str) : is_blank s = true <-> blank s.
Proof. unfold is_blank, blank. apply forallb_forall. Qed.

Lemma blank_app (a b : str) : blank a -> blank b -> blank (a ++ b).
Proof.
  intros Ha Hb c Hc. apply in_app_or in Hc. destruct Hc; auto.
Qed.

Lemma nonempty_strip (s : str) : nonempty (strip s) = negb (is_blank s).
Proof.
  destruct (is_blank s) eqn:E.
  - apply is_blank_iff in E. rewrite (strip_blank s E). reflexivity.
  - destruct (strip s) as [|c r] eqn:Es; [|reflexivity].
    destruct (strip_decompose s) as [a [b [Ha [Hb Hs]]]].
    rewrite Es in Hs. simpl in Hs.
    assert (Hbl : is_blank s = true).
    { apply is_blank_iff. rewrite Hs. apply blank_app; assumption. }
    congruence.
Qed.

Lemma strip_trims_to (part : str) :
  is_blank part = false -> trims_to part (strip part).
Proof.
  intro H. split; [|split].
  - apply nonempty_true. rewrite nonempty_strip, H. reflexivity.
  - apply strip_trimmed.
  - apply strip_decompose.
Qed.

(** The segments the loop parses: the parts that are not blank, each
    without the white space around it, in the order of the parts. *)
Lemma kept_segments (parts : list str) :
  exists segments,
    filter nonempty (map strip parts) = segments /\
    Forall2 trims_to (filter (fun part => negb (is_blank part)) parts) segments.
Proof.
  induction parts as [|part parts [segments [H1 H2]]].
  - exists []. split; [reflexivity|constructor].
  - cbn [map filter]. rewrite nonempty_strip.
    destruct (is_blank part) eqn:E; cbn [negb].
    + exists segments. split; assumption.
    + exists (strip part :: segments). split; [f_equal; exact H1|].
      constructor; [apply strip_trims_to; exact E|exact H2].
Qed.

Lemma split_go_skip (sep p s cur : str) :
  split_go sep (length p) cur (p ++ s) = split_go sep 0 cur s.
Proof.
  induction p as [|c p IH]; [reflexivity|]. cbn [length app split_go]. exact IH.
Qed.

Lemma startswith_prefix (sep s : str) :
  startswith s sep = true -> exists r, s = sep ++ r.
Proof.
  revert s. induction sep as [|p sep IH]; intros s H.
  - exists s. reflexivity.
  - destruct s as [|c s]; [discriminate H|].
    cbn [startswith] in H. apply andb_true_iff in H. destruct H as [Hc Hs].
    apply N.eqb_eq in Hc. subst c.
    destruct (IH s Hs) as [r ->]. exists r. reflexivity.
Qed.

Lemma split_go_not_nil (sep s cur : str) (skip : nat) :
  split_go sep skip cur s <> [].
Proof.
  revert skip cur. induction s as [|c s IH]; intros skip cur;
    cbn [split_go]; [discriminate|].
  destruct skip as [|k]; [|apply IH].
  destruct (startswith (c :: s) sep); [discriminate|apply IH].
Qed.

Lemma join_cons (sep x : str) (l : list str) :
  l <> [] -> join sep (x :: l) = x ++ sep ++ join sep l.
Proof. destruct l; [contradiction|reflexivity]. Qed.

(** Joining the parts with the separator gives the text back. *)
Lemma join_split_go (sep : str) :
  sep <> [] ->
  forall n s cur, length s <= n -> join sep (split_go sep 0 cur s) = rev cur ++ s.
Proof.
  intros Hsep n. induction n as [|n IH]; intros s cur Hn.
  - destruct s; [|simpl in Hn; lia]. cbn [split_go join].
    rewrite app_nil_r. reflexivity.
  - destruct s as [|c s].
    + cbn [split_go join]. rewrite app_nil_r. reflexivity.
    + cbn [split_go]. simpl in Hn.
      destruct (startswith (c :: s) sep) eqn:E.
      * destruct (startswith_prefix sep (c :: s) E) as [r Hr].
        destruct sep as [|p sep']; [contradiction|].
        injection Hr as -> ->.
        replace (length (p :: sep') - 1) with (length sep') by (simpl; lia).
        rewrite split_go_skip.
        rewrite join_cons by apply split_go_not_nil.
        rewrite (IH r []) by (rewrite length_app in Hn; lia).
        reflexivity.
      * rewrite (IH s (c :: cur)) by lia.
        simpl rev. rewrite <- app_assoc. reflexivity.
Qed.

(** C2. On a response text, with a non-empty delimiter: [split] returns
    parts that, joined by the delimiter, are the response text; the
    segments parsed are the parts that are not white space only, each
    without the white space at its two ends, none empty, in the order of
    the parts; each is parsed by [parse_response]. With fewer parsed
    records than texts the result is the parsed records followed by as many
    records as are missing, each a dict in which every category maps to
    [""] and no other key occurs; with more, it is the first records, as
    many as texts; with as many, it is the parsed records. *)
Theorem process_batch_dialogue_reconciles (json_parse : str -> option json)
    (dialogues categories : list str) (delimiter response_text : str) :
  delimiter <> [] ->
  let run :=
    process_batch_dialogue json_parse dialogues categories delimiter
      (Ret response_text) in
  let n := length dialogues in
  exists parts segments padding,
    split response_text delimiter = Ret parts /\
    join delimiter parts = response_text /\
    Forall2 trims_to (filter (fun part => negb (is_blank part)) parts) segments /\
    let parsed :=
      map (fun segment => parse_fragment json_parse segment categories) segments in
    (forall segment, In segment segments ->
       parse_response json_parse segment categories =
       Ret (parse_fragment json_parse segment categories)) /\
    length padding = n - length parsed /\
    Forall (all_absent categories) padding /\
    run = Ret (classify_spec json_parse dialogues categories delimiter response_text) /\
    (length parsed < n -> run = Ret (parsed ++ padding)) /\
    (n < length parsed -> run = Ret (firstn n parsed)) /\
    (length parsed = n -> run = Ret parsed).
Proof.
  intros Hd run n.
  destruct (kept_segments (split_go delimiter 0 [] response_text))
    as [segments [Hseg Htrim]].
  set (parsed :=
         map (fun segment => parse_fragment json_parse segment categories) segments).
  assert (Hrun : run = Ret (reconcile_spec parsed n categories)).
  { unfold run. rewrite process_batch_dialogue_success by exact Hd.
    unfold classify_spec, segments_spec. rewrite Hseg. reflexivity. }
  exists (split_go delimiter 0 [] response_text), segments,
         (repeat (absent_record categories) (n - length parsed)).
  split; [destruct delimiter; [contradiction|reflexivity]|].
  split; [apply (join_split_go delimiter Hd (length response_text)); lia|].
  split; [exact Htrim|].
  cbv zeta. fold parsed.
  split; [intros segment _; apply parse_response_total|].
  split; [apply repeat_length|].
  split.
  { apply Forall_forall. intros r Hr. apply repeat_spec in Hr. subst r.
    apply absent_record_all_absent. }
  split.
  { unfold run. apply process_batch_dialogue_success. exact Hd. }
  split; [|split].
  - intro H. rewrite Hrun. unfold reconcile_spec.
    apply Nat.ltb_lt in H. rewrite H. reflexivity.
  - intro H. rewrite Hrun. unfold reconcile_spec.
    replace (Nat.ltb (length parsed) n) with false
      by (symmetry; apply Nat.ltb_ge; lia).
    apply Nat.ltb_lt in H. rewrite H. reflexivity.
  - intro H. rewrite Hrun. unfold reconcile_spec.
    rewrite H, Nat.ltb_irrefl. reflexivity.
Qed.

Lemma process_batch_dialogue_reconciles_witness :
  let dialogues := [u "a"; u "b"; u "c"] in
  let categories := [u "grammar"; u "pronunciation"] in
  let response_text := q "{'grammar':'1'} -----  ----- {'pronunciation':'1'}" in
  default_delimiter <> [] /\
  process_batch_dialogue JsonRef.parse dialogues categories default_delimiter
    (Ret response_text) =
  Ret [ PDict [(u "grammar", PStr (u "1")); (u "pronunciation", PStr [])];
        PDict [(u "pronunciation", PStr (u "1")); (u "grammar", PStr [])];
        PDict [(u "grammar", PStr []); (u "pronunciation", PStr [])] ] /\
  exists parts segments padding,
    split response_text default_delimiter = Ret parts /\
    join default_delimiter parts = response_text /\
    Forall2 trims_to (filter (fun part => negb (is_blank part)) parts) segments /\
    Forall (all_absent categories) padding /\
    length padding =
    length dialogues -
    length (map (fun segment => parse_fragment JsonRef.parse segment categories)
                segments).
Proof.
  intros dialogues categories response_text.
  assert (Hd : default_delimiter <> []) by discriminate.
  split; [exact Hd|]. split; [reflexivity|].
  destruct (process_batch_dialogue_reconciles JsonRef.parse dialogues
              categories default_delimiter response_text Hd)
    as [parts [segments [padding [H1 [H2 [H3 [_ [H5 [H6 _]]]]]]]]].
  exists parts, segments, padding.
  split; [exact H1|]. split; [exact H2|]. split; [exact H3|].
  split; [exact H6|exact H5].
Defined.
